(** * coins.ipynb: Monte Carlo draws, trial accumulator and count tables

    A shallow embedding of the notebook's Python code.

    - Python values used as outcomes, names and dictionary keys are the
      tagged union [atom] (an [int] or a [str]).
    - Code that can raise runs in [res]; code that also uses the module
      level random generator runs in the state-and-exception monad [M].
    - The generator is an entropy tape: what the Mersenne Twister would
      deliver is an arbitrary sequence of integers, and the functions of
      the [random] module are written over it with the ranges the library
      documents.
    - A finite float64 cell is the rational it stands for ([Q]). The
      table formatter is there twice: with exact arithmetic
      ([dictsToTbl], [norm]), and, in the module [Float64], with the
      conversions and operations of numpy, each rounding to the nearest
      float64. The two tables agree on counts of at most 53 bits (lemma
      [float64_dictsToTbl_exact]); the statements in which rounding or
      overflow matters are about the module. *)

From Stdlib Require Import ZArith QArith Qfield Qround Qabs Lqa.
From Stdlib Require OrderedTypeEx.
From stdpp Require Import base option numbers list sorting strings pretty gmap.

#[local] Open Scope Z_scope.

(** ** Python values *)

Inductive atom : Type :=
  | AInt (z : Z)
  | AStr (s : string).

#[export] Instance atom_eq_dec : EqDecision atom.
Proof. solve_decision. Defined.

Definition atom_to_sum (a : atom) : Z + string :=
  match a with AInt z => inl z | AStr s => inr s end.

Definition atom_of_sum (x : Z + string) : atom :=
  match x with inl z => AInt z | inr s => AStr s end.

#[export] Instance atom_countable : Countable atom.
Proof.
  apply (inj_countable' atom_to_sum atom_of_sum).
  by intros [].
Defined.

(** A Python number as [Coin] receives it for its bias: an [int], or a
    [float] with the text that [%s] prints for it (float formatting is
    the interpreter's business and is carried along as data). *)
Inductive number : Type :=
  | NInt (z : Z)
  | NFloat (q : Q) (shown : string).

Definition number_value (x : number) : Q :=
  match x with NInt z => inject_Z z | NFloat q _ => q end.

Definition number_str (x : number) : string :=
  match x with NInt z => pretty z | NFloat _ s => s end.

(** Truth value of a number: zero is false. *)
Definition number_truthy (x : number) : bool :=
  negb (Z.eqb (Qnum (number_value x)) 0).

Definition Qltb (x y : Q) : bool :=
  Z.ltb (Qnum x * Zpos (Qden y)) (Qnum y * Zpos (Qden x)).

(** ** Exceptions and the two monads *)

Inductive exn : Type :=
  | ValueError
  | IndexError
  | TypeError
  | OverflowError.

Inductive res (A : Type) : Type :=
  | Ok (a : A)
  | Raise (e : exn).
Arguments Ok {A} a.
Arguments Raise {A} e.

#[export] Instance res_ret : MRet res := λ A x, Ok x.
#[export] Instance res_bind : MBind res := λ A B f m,
  match m with Ok a => f a | Raise e => Raise e end.

Definition M (St A : Type) : Type := St → res A * St.

#[export] Instance M_ret {St} : MRet (M St) := λ A x s, (Ok x, s).
#[export] Instance M_bind {St} : MBind (M St) := λ A B f m s,
  match m s with
  | (Ok a, s') => f a s'
  | (Raise e, s') => (Raise e, s')
  end.

Definition throw {St A} (e : exn) : M St A := λ s, (Raise e, s).

(** [for i in range(n): body] *)
Fixpoint for_range {St} (n : nat) (body : M St unit) : M St unit :=
  match n with
  | O => mret tt
  | S k => body ;; for_range k body
  end.

(** [for x in l: acc = body x acc], in the exception monad. *)
Fixpoint for_each {A B} (l : list A) (body : A → B → res B) (acc : B) : res B :=
  match l with
  | [] => Ok acc
  | x :: l' => acc' ← body x acc; for_each l' body acc'
  end.

(** ** The [random] module *)

(** State of the module-level generator: the tape of raw integers still
    to be handed out and the read position. *)
Record rng : Type := mk_rng { tape : nat → Z; pos : nat }.

Abbreviation Rand := (M rng).

Definition next_raw : Rand Z :=
  λ g, (Ok (tape g (pos g)), mk_rng (tape g) (S (pos g))).

(** [_randbelow(n)] for [n > 0]: an integer in [[0, n)]. *)
Definition randbelow (n : Z) : Rand Z :=
  k ← next_raw; mret (k mod n).

(** [random.random()]: a multiple of [2^-53] in [[0, 1)]. *)
Definition random_random : Rand Q :=
  k ← randbelow (2 ^ 53); mret (Qmake k (2 ^ 53)).

(** [random.uniform(a, b)] is [a + (b - a) * random()]. For [a = -1] and
    [b = 1] the float operations round nothing: with [random()] the
    float [k / 2^53], the result is the float [(k - 2^52) / 2^52]. *)
Definition random_uniform (a b : Q) : Rand Q :=
  r ← random_random; mret (a + (b - a) * r)%Q.

(** [random.randint(a, b)] is [randrange(a, b + 1)], which raises
    [ValueError] on an empty range. *)
Definition random_randint (a b : Z) : Rand Z :=
  let width := b + 1 - a in
  if decide (0 < width) then k ← randbelow width; mret (a + k)
  else throw ValueError.

(** [random.choice(seq)]: [IndexError] on an empty sequence. *)
Definition random_choice {A} (seq : list A) : Rand A :=
  match seq with
  | [] => throw IndexError
  | x :: _ =>
      i ← randbelow (Z.of_nat (length seq));
      mret (default x (seq !! Z.to_nat i))
  end.

(** ** Drawable sources *)

(** The duck-typed interface: an attribute [name] and a method [draw].
    No [draw] of the notebook assigns to [self]; what a draw can change
    is the generator. *)
Class Drawable (Src : Type) : Type := {
  name : Src → atom;
  draw : Src → Rand atom
}.

(** The interface as seen from inside a class that has attributes of the
    same names. *)
Definition name_of {Src} `{Drawable Src} (src : Src) : atom := name src.
Definition draw_of {Src} `{Drawable Src} (src : Src) : Rand atom := draw src.

Module Die.
Record t : Type := mk { sides : Z; name : atom }.

Definition __init__ (sides : Z) (name : option atom) : t :=
  {| sides := sides;
     name := match name with Some n => n | None => AInt sides end |}.

Definition draw (self : t) : Rand atom :=
  z ← random_randint 1 (sides self); mret (AInt z).
End Die.

#[export] Instance Die_drawable : Drawable Die.t :=
  {| name := Die.name; draw := Die.draw |}.

Module Coin.
Record t : Type := mk { bias : number; name : atom }.

(** [bias] defaults to 0 in the source. *)
Definition __init__ (bias : number) : t :=
  {| bias := bias;
     name := if negb (number_truthy bias) then AStr "FairCoin"
             else AStr ("Coin:" +:+ number_str bias) |}.

(** The sample that [random.uniform(-1, 1)] yields. *)
Definition sample : Rand Q := random_uniform (-1) 1.

Definition is_heads (self : t) (x : Q) : bool :=
  Qltb x (number_value (bias self)).

Definition draw (self : t) : Rand atom :=
  x ← sample;
  let h := is_heads self x in
  mret (if h then AStr "Heads" else AStr "Tails").
End Coin.

#[export] Instance Coin_drawable : Drawable Coin.t :=
  {| name := Coin.name; draw := Coin.draw |}.

Module Counter.
Section Counter.
Context {Src : Type} `{Drawable Src}.

Record t : Type := mk { source : Src; value : atom; nDraws : Z; name : atom }.

Definition __init__ (source : Src) (value : atom) (nDraws : Z) : t :=
  {| source := source; value := value; nDraws := nDraws;
     name := name_of source |}.

(** The loop of [draw], with [total] threaded through. *)
Fixpoint loop (self : t) (n : nat) (total : Z) : Rand Z :=
  match n with
  | O => mret total
  | S k =>
      r ← draw_of (source self);
      loop self k (if decide (r = value self) then total + 1 else total)
  end.

Definition draw (self : t) : Rand atom :=
  total ← loop self (Z.to_nat (nDraws self)) 0; mret (AInt total).
End Counter.
Arguments t Src : clear implicits.
End Counter.

#[export] Instance Counter_drawable {Src} `{Drawable Src} : Drawable (Counter.t Src) :=
  {| name := Counter.name; draw := Counter.draw |}.

(** ** The trial runner *)

(** The accumulator [{ Result: { Source: count } }]. *)
Abbreviation accum := (gmap atom (gmap atom Z)).

Module Trial.
Section Trial.
Context {Src : Type} `{Drawable Src} {X : Type}.

(** A trial object: the [results] attribute of the base class and the
    attributes [X] that a subclass adds. *)
Record t : Type := mk { results : accum; attrs : X }.

(** What a method of a trial can reach: the generator of the [random]
    module and the object itself. *)
Record world : Type := mk_world { random : rng; self : t }.

Definition __init__ (x : X) : t := {| results := ∅; attrs := x |}.

Definition lift_random {A} (m : Rand A) : M world A :=
  λ w, let (r, g) := m (random w) in (r, mk_world g (self w)).

(** The dictionary update of [_add]. *)
Definition add_count (name result : atom) (results : accum) : accum :=
  let results :=
    if decide (results !! result = None) then <[result := ∅]> results
    else results in
  let row := results !!! result in
  <[result := <[name := default 0 (row !! name) + 1]> row]> results.

Definition _add (name result : atom) : M world unit :=
  λ w, (Ok tt,
        mk_world (random w)
          (mk (add_count name result (results (self w))) (attrs (self w)))).

(** The abstract method. *)
Variable chooseSource : M world Src.

Definition step : M world unit :=
  src ← chooseSource;
  let n := name src in
  r ← lift_random (draw src);
  _add n r.

(** [nDraws] defaults to 1000000 in the source; [range] of a negative
    number is empty. *)
Definition run (nDraws : Z) : M world unit :=
  for_range (Z.to_nat nDraws) step.
End Trial.
Arguments t X : clear implicits.
Arguments world X : clear implicits.
End Trial.

Module UniformSelectionTrial.
Section UniformSelectionTrial.
Context {Src : Type} `{Drawable Src}.

Definition __init__ (sources : list Src) : Trial.t (list Src) := Trial.__init__ sources.

Definition sources (self : Trial.t (list Src)) : list Src := Trial.attrs self.

Definition chooseSource : M (Trial.world (list Src)) Src :=
  λ w, Trial.lift_random (random_choice (sources (Trial.self w))) w.

Definition run (nDraws : Z) : M (Trial.world (list Src)) unit :=
  Trial.run chooseSource nDraws.
End UniformSelectionTrial.
End UniformSelectionTrial.

(** ** The table formatter *)

(** Python's [<] on the values: defined between two [int]s and between
    two [str]s (by code point), a [TypeError] otherwise. *)
Definition same_kind (a b : atom) : bool :=
  match a, b with
  | AInt _, AInt _ | AStr _, AStr _ => true
  | _, _ => false
  end.

Definition atom_lt (a b : atom) : Prop :=
  match a, b with
  | AInt x, AInt y => x < y
  | AStr s, AStr u => String.compare s u = Lt
  | _, _ => False
  end.

(** The order handed to the sorting routine. It agrees with Python's
    order on values of one kind; [sorted] never gets to compare values
    of two kinds, where the choice made here is arbitrary. *)
Definition atom_leb (a b : atom) : bool :=
  match a, b with
  | AInt x, AInt y => Z.leb x y
  | AStr s, AStr u => String.leb s u
  | AInt _, AStr _ => true
  | AStr _, AInt _ => false
  end.

Definition atom_le (a b : atom) : Prop := atom_leb a b = true.

#[export] Instance atom_le_dec : RelDecision atom_le.
Proof. intros a b. unfold atom_le. apply _. Defined.

Definition comparable (l : list atom) : bool :=
  match l with
  | [] => true
  | x :: l' => forallb (same_kind x) l'
  end.

(** [sorted(l)]. A comparison sort has compared, directly or through a
    chain, every two elements; on a list with an [int] and a [str] one of
    its comparisons is between the kinds and raises. *)
Definition sorted (l : list atom) : res (list atom) :=
  if comparable l then Ok (merge_sort atom_le l) else Raise TypeError.

(** [l.index(x)] *)
Fixpoint list_index (x : atom) (l : list atom) : res nat :=
  match l with
  | [] => Raise ValueError
  | y :: l' => if decide (y = x) then Ok O else i ← list_index x l'; Ok (S i)
  end.

Abbreviation matrix := (list (list Q)).

Definition np_zeros (rows cols : nat) : matrix :=
  replicate rows (replicate cols 0%Q).

(** [ret[ri, ci] = v] *)
Definition setitem (ret : matrix) (ri ci : nat) (v : Q) : res matrix :=
  match ret !! ri with
  | Some row =>
      if decide (ci < length row)%nat then Ok (<[ri := <[ci := v]> row]> ret)
      else Raise IndexError
  | None => Raise IndexError
  end.

Definition keys {V} (d : gmap atom V) : list atom := (map_to_list d).*1.
Definition values {V} (d : gmap atom V) : list V := (map_to_list d).*2.
Definition items {V} (d : gmap atom V) : list (atom * V) := map_to_list d.

(** [dictsToTbl] with the count stored as it is, which is what the
    assignment to a float64 cell does with a count of at most 53 bits;
    [Float64.dictsToTbl] below has the conversion for every count. *)
Definition dictsToTbl (dd : accum) : res (matrix * list atom * list atom) :=
  rowNames ← sorted (keys dd);
  let colNames : gset atom :=
    foldl (λ colNames r, colNames ∪ list_to_set (keys r)) ∅ (values dd) in
  colNames ← sorted (elements colNames);
  let ret := np_zeros (length rowNames) (length colNames) in
  ret ← for_each (items dd) (λ '(rn, row) ret,
           ri ← list_index rn rowNames;
           for_each (items row) (λ '(cn, v) ret,
             ci ← list_index cn colNames;
             setitem ret ri ci (inject_Z v)) ret) ret;
  Ok (ret, rowNames, colNames).

(** A float64: a finite number, an infinity or [nan]. *)
Inductive float64 : Type :=
  | Finite (q : Q)
  | PosInf
  | NegInf
  | NaN.

(** Division of finite numbers with the exact quotient: a zero divisor
    gives [nan] for [0 / 0] and an infinity otherwise (numpy warns and
    carries on). [Float64.div] below rounds the quotient. *)
Definition np_divide (x s : Q) : float64 :=
  if Qeq_bool s 0 then
    if Qeq_bool x 0 then NaN
    else if Qltb 0 x then PosInf else NegInf
  else Finite (x / s).

Definition Qsum (l : list Q) : Q := foldr Qplus 0%Q l.

(** [np.sum(ar, axis=1, keepdims=True)]: one column of row sums, here
    exact. *)
Definition np_sum_axis1_keepdims (ar : matrix) : matrix :=
  (λ row, [Qsum row]) <$> ar.

(** [ar / col], the column broadcast along each row. *)
Definition np_divide_broadcast (ar col : matrix) : list (list float64) :=
  zip_with (λ row s, (λ x, np_divide x (hd 0%Q s)) <$> row) ar col.

Definition norm (ar : matrix) : list (list float64) :=
  np_divide_broadcast ar (np_sum_axis1_keepdims ar).

(** ** Concrete inputs for the examples *)

Definition tape0 : nat → Z := λ n, Z.of_nat n * 7919 + 3.
Definition g0 : rng := mk_rng tape0 0.

(** ** Vocabulary of the statements *)

(** A source whose [draw] returns normally whatever the generator holds. *)
Definition draws_return {Src} `{Drawable Src} (src : Src) : Prop :=
  ∀ g, ∃ r g', draw src g = (Ok r, g').

(** A source whose every draw is [v]. *)
Definition always_draws {Src} `{Drawable Src} (src : Src) (v : atom) : Prop :=
  ∀ g, ∃ g', draw src g = (Ok v, g').

(** The sample of [Coin.draw] when the generator hands out the raw
    integer [k]. *)
Definition sample_at (k : Z) : Q :=
  (-1 + (1 - -1) * Qmake (k mod 2 ^ 53) (2 ^ 53))%Q.

(** How many of [0, ..., n-1] satisfy [P]. *)
Fixpoint count_below (P : Z → bool) (n : nat) : Z :=
  match n with
  | O => 0
  | S k => count_below P k + (if P (Z.of_nat k) then 1 else 0)
  end.

(** The generator that is about to hand out the raw integer [k]. *)
Definition rng_at (k : Z) : rng := mk_rng (λ _, k) 0.

(** Whether [c.draw()] returns heads on that generator. *)
Definition shows_heads (c : Coin.t) (k : Z) : bool :=
  match fst (draw c (rng_at k)) with
  | Ok r => bool_decide (r = AStr "Heads")
  | Raise _ => false
  end.

(** [random.random()] has [2^53] equally likely results; the head
    probability of a coin is the share of them on which its [draw]
    returns heads. *)
Definition heads_count (c : Coin.t) : Z :=
  count_below (shows_heads c) (Z.to_nat (2 ^ 53)).

Definition heads_probability (c : Coin.t) : Q :=
  (inject_Z (heads_count c) / inject_Z (2 ^ 53))%Q.

(** The least integer not below [(bias + 1) * 2^52]. *)
Definition heads_threshold (b : Q) : Z :=
  - ((- ((Qnum b + Zpos (Qden b)) * 2 ^ 52)) / Zpos (Qden b)).

(** The count of a cell of the accumulator, zero when the cell is absent. *)
Definition cell_count (dd : accum) (rn cn : atom) : Z :=
  default 0 (dd !! rn ≫= λ row, row !! cn).

Definition Zsum (l : list Z) : Z := foldr Z.add 0 l.

(** Sum of [f] over the values of a dictionary. *)
Definition map_sum {V} (f : V → Z) (d : gmap atom V) : Z :=
  Zsum (f <$> values d).

(** Sum of the counts of one row, and of all cells of the accumulator. *)
Definition row_total (row : gmap atom Z) : Z := map_sum id row.
Definition total (dd : accum) : Z := map_sum row_total dd.

Definition counts_nonneg (dd : accum) : Prop :=
  ∀ rn row cn c, dd !! rn = Some row → row !! cn = Some c → 0 ≤ c.

(** Recording a list of (source name, outcome) pairs, oldest first. *)
Definition record_all (l : list (atom * atom)) (dd : accum) : accum :=
  foldl (λ dd p, Trial.add_count p.1 p.2 dd) dd l.

Section Trial_vocabulary.
Context {Src : Type} `{Drawable Src} {X : Type}.
Variable chooseSource : M (Trial.world X) Src.

(** The pairs that the first [n] iterations of [run] record, up to the
    first iteration that raises. Its length is the number of draw
    iterations performed. *)
Fixpoint run_log (n : nat) (w : Trial.world X) : list (atom * atom) :=
  match n with
  | O => []
  | S k =>
      match chooseSource w with
      | (Ok src, w1) =>
          match Trial.lift_random (draw src) w1 with
          | (Ok r, w2) =>
              (name src, r) :: run_log k (snd (Trial._add (name src) r w2))
          | (Raise _, _) => []
          end
      | (Raise _, _) => []
      end
  end.

Definition draws_of_run (nDraws : Z) (w : Trial.world X) : list (atom * atom) :=
  run_log (Z.to_nat nDraws) w.

(** A selection policy that leaves the accumulator alone. *)
Definition policy_frame : Prop :=
  ∀ w, Trial.results (Trial.self (snd (chooseSource w)))
       = Trial.results (Trial.self w).
End Trial_vocabulary.

(** The accumulators that recording draws can build. *)
Inductive reachable : accum → Prop :=
  | reachable_empty : reachable ∅
  | reachable_add name result dd :
      reachable dd → reachable (Trial.add_count name result dd).

Definition dice : list Die.t := (λ n, Die.__init__ n None) <$> [4; 6; 8; 12; 20].

Definition dice_world : Trial.world (list Die.t) :=
  Trial.mk_world g0 (UniformSelectionTrial.__init__ dice).

(** The reading of the frame property under which a run touches the
    accumulator and nothing else that a trial can reach. *)
Definition run_touches_results_only {Src} `{Drawable Src}
    (nDraws : Z) (w : Trial.world (list Src)) : Prop :=
  let w' := snd (UniformSelectionTrial.run nDraws w) in
  UniformSelectionTrial.sources (Trial.self w')
    = UniformSelectionTrial.sources (Trial.self w) ∧
  Trial.random w' = Trial.random w.

(** The set of column names that [dictsToTbl] collects. *)
Definition column_set (dd : accum) : gset atom :=
  foldl (λ colNames r, colNames ∪ list_to_set (keys r)) ∅ (values dd).

(** The dense table of [dd] over given row and column labels: the count
    of the cell when it is present and zero when it is absent. *)
Definition dense (dd : accum) (rowNames colNames : list atom) : matrix :=
  (λ rn, (λ cn, inject_Z (cell_count dd rn cn)) <$> colNames) <$> rowNames.

(** The cell [ret[r, c]]. *)
Definition cell (ret : matrix) (r c : nat) : option Q :=
  ret !! r ≫= λ row, row !! c.

(** An array of [rows] by [cols] cells. *)
Definition shape (rows cols : nat) (ret : matrix) : Prop :=
  length ret = rows ∧ Forall (λ row, length row = cols) ret.

(** Values of one kind, which Python can order. *)
Definition one_kind (l : list atom) : Prop :=
  ∀ x y, x ∈ l → y ∈ l → same_kind x y = true.

(** The inner loop of [dictsToTbl], over the items of one row. *)
Definition fill_row (colNames : list atom) (ri : nat)
    (its : list (atom * Z)) (ret : matrix) : res matrix :=
  for_each its (λ '(cn, v) ret,
    ci ← list_index cn colNames;
    setitem ret ri ci (inject_Z v)) ret.

(** The outer loop, over the items of the dictionary. *)
Definition fill (rowNames colNames : list atom)
    (its : list (atom * gmap atom Z)) (ret : matrix) : res matrix :=
  for_each its (λ '(rn, row) ret,
    ri ← list_index rn rowNames;
    for_each (items row) (λ '(cn, v) ret,
      ci ← list_index cn colNames;
      setitem ret ri ci (inject_Z v)) ret) ret.

(** How often an outcome was recorded: the sum of its row, zero when the
    outcome has no row. *)
Definition outcome_total (dd : accum) (rn : atom) : Z :=
  default 0 (row_total <$> dd !! rn).

(** A division that did not come out as a number. *)
Definition undefined (y : float64) : Prop :=
  match y with Finite _ => False | _ => True end.

(** A small accumulator: outcome 3 seen five times from source 4,
    outcome 6 seen twice from source 6 and once from source 8. *)
Definition dd_example : accum :=
  {[ AInt 6 := {[ AInt 6 := 2; AInt 8 := 1 ]}; AInt 3 := {[ AInt 4 := 5 ]} ]}.

(** Every row of the accumulator has a cell, and every cell has counted
    at least one draw. *)
Definition rows_populated (dd : accum) : Prop :=
  ∀ rn row, dd !! rn = Some row →
    row ≠ ∅ ∧ ∀ cn c, row !! cn = Some c → 1 ≤ c.

(** The table of thirty draws from the box of dice on the tape [tape0]. *)
Definition dice_table : matrix * list atom * list atom :=
  ([[3; 2; 1; 1; 0]; [3; 2; 2; 1; 0]; [0; 2; 2; 1; 0]; [0; 0; 1; 1; 0];
    [0; 0; 0; 1; 3]; [0; 0; 0; 1; 0]; [0; 0; 0; 0; 3]]%Q,
   AInt <$> [1; 3; 5; 7; 9; 11; 19],
   AInt <$> [4; 6; 8; 12; 20]).

(** A source whose draws return but are never [v]. *)
Definition never_draws {Src} `{Drawable Src} (src : Src) (v : atom) : Prop :=
  ∀ g, ∃ r g', draw src g = (Ok r, g') ∧ r ≠ v.

(** The notebook's jar of coins: one double-headed coin and [n] fair
    ones, each wrapped in a counter of heads over [k] flips. *)
Definition jar (n : nat) (k : Z) : list (Counter.t Coin.t) :=
  (λ coin, Counter.__init__ coin (AStr "Heads") k)
    <$> (Coin.__init__ (NInt 1) :: replicate n (Coin.__init__ (NInt 0))).

(** ** The table formatter in float64 arithmetic

    The definitions above compute with the exact values of the cells.
    This module has the same functions as numpy runs them on float64
    cells: converting a count, adding, dividing and multiplying round
    to the nearest float64 (ties to even), and a count too large for a
    float64 raises [OverflowError]. A finite cell is the rational it
    stands for; a zero is taken as [+0.0], which is what [np.zeros] and
    sums of non-negative cells give. *)
Module Float64.

(** The fraction [n / d] divided by [2^k], as numerator and
    denominator. *)
Definition scale (n d k : Z) : Z * Z :=
  if 0 <=? k then (n, d * 2 ^ k) else (n * 2 ^ (- k), d).

(** The largest [e] with [2^e <= n / d], for positive [n] and [d]. *)
Definition floor_log2 (n d : Z) : Z :=
  let e0 := Z.log2 n - Z.log2 d in
  let '(N, D) := scale n d e0 in
  if D <=? N then e0 else e0 - 1.

(** [2^k <= n / d] *)
Definition pow2_le (k n d : Z) : Prop :=
  (scale n d k).2 ≤ (scale n d k).1.

(** Rounding [n / d > 0] to 53 significant bits, or to a multiple of
    [2^-1074] below [2^-1022]: the result is [M * 2^u]. *)
Definition round_pos (n d : Z) : Z * Z :=
  let u := Z.max (floor_log2 n d) (-1022) - 52 in
  let '(N, D) := scale n d u in
  let m := N / D in
  let r := N mod D in
  let M := if 2 * r <? D then m
           else if D <? 2 * r then m + 1
           else if Z.even m then m else m + 1 in
  (M, u).

(** [m * 2^u] *)
Definition ldexp (m u : Z) : Q :=
  if 0 <=? u then inject_Z (m * 2 ^ u) else Qred (m # Z.to_pos (2 ^ (- u))).

(** The float64 nearest to [q]; beyond the largest float64 it is an
    infinity. *)
Definition round (q : Q) : float64 :=
  let q := Qred q in
  match Qnum q with
  | 0 => Finite 0
  | Zpos n =>
      let '(M, u) := round_pos (Zpos n) (Zpos (Qden q)) in
      if 2 ^ 1024 <=? M * 2 ^ u then PosInf else Finite (ldexp M u)
  | Zneg n =>
      let '(M, u) := round_pos (Zpos n) (Zpos (Qden q)) in
      if 2 ^ 1024 <=? M * 2 ^ u then NegInf else Finite (- ldexp M u)
  end.

(** [float(v)] for a Python [int]. *)
Definition of_int (v : Z) : res Q :=
  match round (inject_Z v) with
  | Finite q => Ok q
  | _ => Raise OverflowError
  end.

Definition add (x y : float64) : float64 :=
  match x, y with
  | NaN, _ | _, NaN => NaN
  | PosInf, NegInf | NegInf, PosInf => NaN
  | PosInf, _ | _, PosInf => PosInf
  | NegInf, _ | _, NegInf => NegInf
  | Finite a, Finite b => round (a + b)
  end.

(** The infinity of the sign of [a], [a] not zero. *)
Definition inf_of_sign (a : Q) : float64 :=
  if Qltb 0 a then PosInf else NegInf.

Definition mul (x y : float64) : float64 :=
  match x, y with
  | NaN, _ | _, NaN => NaN
  | Finite a, Finite b => round (a * b)
  | Finite a, PosInf | PosInf, Finite a =>
      if Qeq_bool a 0 then NaN else inf_of_sign a
  | Finite a, NegInf | NegInf, Finite a =>
      if Qeq_bool a 0 then NaN else inf_of_sign (- a)
  | PosInf, PosInf | NegInf, NegInf => PosInf
  | PosInf, NegInf | NegInf, PosInf => NaN
  end.

Definition div (x y : float64) : float64 :=
  match x, y with
  | NaN, _ | _, NaN => NaN
  | Finite a, Finite b =>
      if Qeq_bool b 0 then
        if Qeq_bool a 0 then NaN else inf_of_sign a
      else round (a / b)
  | Finite _, _ => Finite 0
  | PosInf, Finite b => if Qltb b 0 then NegInf else PosInf
  | NegInf, Finite b => if Qltb b 0 then PosInf else NegInf
  | _, _ => NaN
  end.

(** [ret[ri, ci] = v] with a Python [int] [v]: the conversion to a
    float64, then the assignment [setitem] of the section above. *)
Definition setitem (ret : matrix) (ri ci : nat) (v : Z) : res matrix :=
  x ← of_int v; setitem ret ri ci x.

Definition dictsToTbl (dd : accum) : res (matrix * list atom * list atom) :=
  rowNames ← sorted (keys dd);
  let colNames : gset atom :=
    foldl (λ colNames r, colNames ∪ list_to_set (keys r)) ∅ (values dd) in
  colNames ← sorted (elements colNames);
  let ret := np_zeros (length rowNames) (length colNames) in
  ret ← for_each (items dd) (λ '(rn, row) ret,
           ri ← list_index rn rowNames;
           for_each (items row) (λ '(cn, v) ret,
             ci ← list_index cn colNames;
             setitem ret ri ci v) ret) ret;
  Ok (ret, rowNames, colNames).

(** The inner loop of [dictsToTbl], over the items of one row, and the
    outer loop, over the items of the dictionary. *)
Definition fill_row (colNames : list atom) (ri : nat)
    (its : list (atom * Z)) (ret : matrix) : res matrix :=
  for_each its (λ '(cn, v) ret,
    ci ← list_index cn colNames;
    setitem ret ri ci v) ret.

Definition fill (rowNames colNames : list atom)
    (its : list (atom * gmap atom Z)) (ret : matrix) : res matrix :=
  for_each its (λ '(rn, row) ret,
    ri ← list_index rn rowNames;
    for_each (items row) (λ '(cn, v) ret,
      ci ← list_index cn colNames;
      setitem ret ri ci v) ret) ret.

(** The sum of a row: the cells are added one after the other, each sum
    rounded. numpy adds in blocks and pairs instead; [sums_to] takes in
    every order and grouping of the additions, and on a row of counts
    whose total is at most [2^53], the rows of the statements below, all
    of them give the total (lemma [sums_to_exact]). *)
Definition np_sum (row : list Q) : float64 :=
  foldl (λ acc x, add acc (Finite x)) (Finite 0) row.

(** What some order and grouping of float64 additions makes of the cells
    of a row. *)
Inductive sums_to : list Q → float64 → Prop :=
  | sums_nil : sums_to [] (Finite 0)
  | sums_one x : sums_to [x] (Finite x)
  | sums_app l1 l2 s1 s2 :
      sums_to l1 s1 → sums_to l2 s2 → sums_to (l1 ++ l2) (add s1 s2)
  | sums_perm l l' s : l ≡ₚ l' → sums_to l s → sums_to l' s.

(** [np.sum(ar, axis=1, keepdims=True)] *)
Definition np_sum_axis1_keepdims (ar : matrix) : list (list float64) :=
  (λ row, [np_sum row]) <$> ar.

(** [ar / col] *)
Definition np_divide_broadcast (ar : matrix) (col : list (list float64))
    : list (list float64) :=
  zip_with (λ (row : list Q) (s : list float64),
              (λ x, div (Finite x) (hd NaN s)) <$> row) ar col.

Definition norm (ar : matrix) : list (list float64) :=
  np_divide_broadcast ar (np_sum_axis1_keepdims ar).

(** [astype(int)] on a cell: truncation towards zero; a [nan], an
    infinity or a number outside int64 is cast to the least int64 (what
    the conversion instruction of x86-64 gives). *)
Definition astype_int (y : float64) : Z :=
  match y with
  | Finite q =>
      let t := Z.quot (Qnum q) (Zpos (Qden q)) in
      if (- 2 ^ 63 <=? t) && (t <? 2 ^ 63) then t else - 2 ^ 63
  | _ => - 2 ^ 63
  end.

(** The array [(ar * 10000).astype(int) / 100.] *)
Definition percentages (ar : list (list float64)) : list (list float64) :=
  (λ row : list float64,
     (λ y : float64,
        div (round (inject_Z (astype_int (mul y (Finite 10000)))))
            (Finite 100))
     <$> row) <$> ar.

(** [printSummary]: what it hands to [print], in the order of the three
    calls: the column labels, the row labels, the array of percentages. *)
Definition printSummary {X} (self : Trial.t X)
    : res (list atom * list atom * list (list float64)) :=
  '(values, rows, cols) ← dictsToTbl (Trial.results self);
  Ok (cols, rows, percentages (norm values)).
End Float64.

(** ** Vocabulary of the float64 statements *)

(** Counts that a float64 holds exactly: integers of magnitude at most
    [2^53]. *)
Definition counts_fit (dd : accum) : Prop :=
  ∀ rn row cn v, dd !! rn = Some row → row !! cn = Some v → Z.abs v ≤ 2 ^ 53.

(** One cell with a count of 54 bits, and one with a count beyond the
    float64 range. *)
Definition dd_wide : accum := {[ AInt 1 := {[ AInt 1 := 2 ^ 53 + 1 ]} ]}.
Definition dd_huge : accum := {[ AInt 1 := {[ AInt 1 := 10 ^ 400 ]} ]}.

(** * Properties *)

(** ** Running the monads *)

Lemma M_bind_ok {St A B} (m : M St A) (f : A → M St B) s a s' :
  m s = (Ok a, s') → (m ≫= f) s = f a s'.
Proof. intros E. unfold mbind, M_bind. by rewrite E. Qed.

Lemma M_bind_raise {St A B} (m : M St A) (f : A → M St B) s e s' :
  m s = (Raise e, s') → (m ≫= f) s = (Raise e, s').
Proof. intros E. unfold mbind, M_bind. by rewrite E. Qed.

Lemma randbelow_run n g :
  randbelow n g = (Ok (tape g (pos g) mod n), mk_rng (tape g) (S (pos g))).
Proof. reflexivity. Qed.

Lemma randint_run a b g :
  a ≤ b →
  random_randint a b g =
    (Ok (a + tape g (pos g) mod (b + 1 - a)), mk_rng (tape g) (S (pos g))).
Proof.
  intros Hab. unfold random_randint. cbv zeta.
  destruct (decide (0 < b + 1 - a)) as [_|Hn]; [reflexivity | lia].
Qed.

Lemma randint_empty a b g : b < a → random_randint a b g = (Raise ValueError, g).
Proof.
  intros Hab. unfold random_randint. cbv zeta.
  destruct (decide (0 < b + 1 - a)) as [Hn|_]; [lia | reflexivity].
Qed.

Lemma always_draws_return {Src} `{Drawable Src} (src : Src) v :
  always_draws src v → draws_return src.
Proof. intros Hv g. destruct (Hv g) as [g' E]. eauto. Qed.

(** ** Die *)

Lemma Die_draw_run N nm g :
  1 ≤ N →
  draw (Die.__init__ N nm) g =
    (Ok (AInt (1 + tape g (pos g) mod N)), mk_rng (tape g) (S (pos g))).
Proof.
  intros HN. change (draw (Die.__init__ N nm)) with (Die.draw (Die.__init__ N nm)).
  unfold Die.draw.
  erewrite M_bind_ok by (apply randint_run; cbn; lia).
  cbn. by replace (N + 1 - 1) with N by lia.
Qed.

Lemma Die_draws_return N nm : 1 ≤ N → draws_return (Die.__init__ N nm).
Proof. intros HN g. rewrite Die_draw_run by done. eauto. Qed.

(** C5: for a positive number of sides [N], [Die(N).draw()] returns,
    whatever the state of the generator, an integer between 1 and [N],
    both included. *)
Theorem Die_draw_range (N : Z) (nm : option atom) (g : rng) :
  1 ≤ N →
  ∃ z, fst (draw (Die.__init__ N nm) g) = Ok (AInt z) ∧ 1 ≤ z ≤ N.
Proof.
  intros HN. rewrite Die_draw_run by done.
  eexists. split; [reflexivity|].
  pose proof (Z.mod_pos_bound (tape g (pos g)) N). lia.
Qed.

Lemma Die_draw_range_witness :
  ∃ z, fst (draw (Die.__init__ 6 None) g0) = Ok (AInt z) ∧ 1 ≤ z ≤ 6.
Proof. apply (Die_draw_range 6 None g0). lia. Defined.

(** ** Coin *)

Lemma Qltb_lt x y : Qltb x y = true ↔ (x < y)%Q.
Proof. unfold Qltb, Qlt. apply Z.ltb_lt. Qed.

Lemma Coin_sample_run g :
  Coin.sample g =
    (Ok (sample_at (tape g (pos g))), mk_rng (tape g) (S (pos g))).
Proof. reflexivity. Qed.

Lemma Coin_draw_run c g :
  draw c g =
    (Ok (if Coin.is_heads c (sample_at (tape g (pos g)))
         then AStr "Heads" else AStr "Tails"),
     mk_rng (tape g) (S (pos g))).
Proof. reflexivity. Qed.

(** The sample is [(2k - 2^53) / 2^53] for the 53-bit integer [k]. *)
Lemma sample_at_num k : Qnum (sample_at k) = 2 * (k mod 2 ^ 53) - 2 ^ 53.
Proof. unfold sample_at. cbn -[Z.mul Z.pow Z.modulo Pos.pow]. lia. Qed.

Lemma sample_at_den k : Qden (sample_at k) = (2 ^ 53)%positive.
Proof. reflexivity. Qed.

Lemma sample_at_range k : (-1 <= sample_at k)%Q ∧ (sample_at k < 1)%Q.
Proof.
  unfold Qle, Qlt. rewrite sample_at_num, sample_at_den.
  pose proof (Z.mod_pos_bound k (2 ^ 53)). cbn -[Z.mul Z.pow Z.modulo]. lia.
Qed.

Lemma is_heads_iff c k :
  Coin.is_heads c (sample_at k) = true ↔
  (sample_at k < number_value (Coin.bias c))%Q.
Proof. apply Qltb_lt. Qed.

Lemma count_below_threshold P c n :
  0 ≤ c →
  (∀ k, 0 ≤ k < Z.of_nat n → P k = (k <? c)) →
  count_below P n = Z.min c (Z.of_nat n).
Proof.
  intros Hc. induction n as [|n IH]; intros HP.
  - cbn. lia.
  - cbn [count_below]. rewrite IH by (intros k Hk; apply HP; lia).
    rewrite (HP (Z.of_nat n)) by lia.
    destruct (Z.ltb_spec (Z.of_nat n) c); lia.
Qed.

Lemma heads_threshold_spec b k :
  k < heads_threshold b ↔ k * Zpos (Qden b) < (Qnum b + Zpos (Qden b)) * 2 ^ 52.
Proof.
  unfold heads_threshold.
  set (q := Zpos (Qden b)). set (n := (Qnum b + q) * 2 ^ 52).
  assert (Hq : 0 < q) by (unfold q; lia).
  pose proof (Z.mul_div_le (- n) q Hq) as Hlo.
  pose proof (Z.mul_succ_div_gt (- n) q Hq) as Hhi.
  set (d := - n / q) in *. nia.
Qed.

Lemma is_heads_threshold c k :
  0 ≤ k < 2 ^ 53 →
  Coin.is_heads c (sample_at k) =
    (k <? heads_threshold (number_value (Coin.bias c))).
Proof.
  intros Hk. apply Bool.eq_iff_eq_true.
  rewrite is_heads_iff, Z.ltb_lt, heads_threshold_spec.
  unfold Qlt. rewrite sample_at_num, sample_at_den, Z.mod_small by done.
  set (q := Zpos (Qden _)). set (p := Qnum _).
  change (Z.pos (2 ^ 53)) with (2 * 2 ^ 52). change (2 ^ 53) with (2 * 2 ^ 52).
  nia.
Qed.

Lemma heads_threshold_bounds b :
  (-1 <= b)%Q → (b <= 1)%Q → 0 ≤ heads_threshold b ≤ 2 ^ 53.
Proof.
  unfold Qle. cbn [Qnum Qden]. intros Hlo Hhi.
  pose proof (heads_threshold_spec b (-1)) as H1.
  pose proof (heads_threshold_spec b (2 ^ 53)) as H2.
  change (2 ^ 53) with (2 * 2 ^ 52) in *.
  set (q := Zpos (Qden b)) in *. assert (0 < q) by (unfold q; lia).
  split.
  - enough (-1 < heads_threshold b) by lia. apply H1. nia.
  - enough (¬ 2 * 2 ^ 52 < heads_threshold b) by lia. rewrite H2. nia.
Qed.

Lemma shows_heads_is_heads c k :
  shows_heads c k = Coin.is_heads c (sample_at k).
Proof.
  unfold shows_heads. rewrite Coin_draw_run. cbn [fst rng_at tape pos].
  by destruct (Coin.is_heads c (sample_at k)).
Qed.

Lemma heads_count_threshold c :
  (-1 <= number_value (Coin.bias c))%Q →
  (number_value (Coin.bias c) <= 1)%Q →
  heads_count c = heads_threshold (number_value (Coin.bias c)).
Proof.
  intros Hlo Hhi. pose proof (heads_threshold_bounds _ Hlo Hhi) as HT.
  unfold heads_count.
  rewrite (count_below_threshold _ (heads_threshold (number_value (Coin.bias c)))).
  - rewrite Z2Nat.id by done. lia.
  - lia.
  - intros k Hk. rewrite Z2Nat.id in Hk by done.
    rewrite shows_heads_is_heads. by apply is_heads_threshold.
Qed.

Lemma heads_threshold_ceiling b :
  let q := Zpos (Qden b) in
  let n := (Qnum b + q) * 2 ^ 52 in
  n ≤ heads_threshold b * q < n + q.
Proof.
  intros q n.
  pose proof (heads_threshold_spec b (heads_threshold b)) as H1.
  pose proof (heads_threshold_spec b (heads_threshold b - 1)) as H2.
  fold q in H1, H2. fold n in H1, H2. lia.
Qed.

Lemma heads_probability_bounds c :
  let b := number_value (Coin.bias c) in
  (-1 <= b)%Q → (b <= 1)%Q →
  ((b + 1) / 2 <= heads_probability c)%Q ∧
  (heads_probability c < (b + 1) / 2 + 1 / inject_Z (2 ^ 53))%Q ∧
  ((∃ m : Z, b == m # 2 ^ 52)%Q → (heads_probability c == (b + 1) / 2)%Q).
Proof.
  intros b Hlo Hhi. unfold heads_probability.
  rewrite heads_count_threshold by done. fold b.
  pose proof (heads_threshold_ceiling b) as HT. cbv zeta in HT.
  set (T := heads_threshold b) in *. clearbody T.
  destruct b as [p q]. cbn [Qnum Qden] in HT.
  unfold Qdiv.
  change (/ inject_Z (2 ^ 53))%Q with (1 # 2 ^ 53)%Q.
  change (/ 2)%Q with (1 # 2)%Q.
  unfold Qle, Qlt, Qeq, Qmult, Qplus, inject_Z. cbn [Qnum Qden].
  rewrite ?Pos2Z.inj_mul.
  change (Z.pos (2 ^ 53)) with (2 * 2 ^ 52).
  change (Z.pos (2 ^ 52)) with (2 ^ 52).
  set (E := 2 ^ 52) in *. assert (0 < E) by (unfold E; lia). clearbody E.
  set (d := Z.pos q) in *. assert (0 < d) by (unfold d; lia). clearbody d.
  split; [|split].
  - nia.
  - nia.
  - intros [m Hm]. assert (T = m + E) by nia. subst T. nia.
Qed.

Lemma Coin_one_always_heads : always_draws (Coin.__init__ (NInt 1)) (AStr "Heads").
Proof.
  intros g. eexists. rewrite Coin_draw_run.
  destruct (Coin.is_heads _ _) eqn:E; [reflexivity|].
  apply Bool.not_true_iff_false in E. exfalso. apply E.
  apply is_heads_iff, (sample_at_range (tape g (pos g))).
Qed.

Lemma Coin_minus_one_always_tails :
  always_draws (Coin.__init__ (NInt (-1))) (AStr "Tails").
Proof.
  intros g. eexists. rewrite Coin_draw_run.
  destruct (Coin.is_heads _ _) eqn:E; [|reflexivity].
  apply is_heads_iff in E. cbn in E.
  destruct (sample_at_range (tape g (pos g))) as [Hlo _].
  exfalso. by apply (Qlt_not_le _ _ E).
Qed.

(** C6, amended: [Coin(bias=1).draw()] is always heads and
    [Coin(bias=-1).draw()] always tails; a draw is heads exactly when the
    sample of [random.uniform(-1, 1)] is below the bias; and over the
    [2^53] equally likely samples the share of draws that return heads
    is [(bias + 1) / 2] exactly for a bias that is a multiple of [2^-52],
    and for any other bias between -1 and 1 it is at least
    [(bias + 1) / 2] and less than [2^-53] above it. *)
Theorem Coin_draw_bias :
  (∀ g, fst (draw (Coin.__init__ (NInt 1)) g) = Ok (AStr "Heads")) ∧
  (∀ g, fst (draw (Coin.__init__ (NInt (-1))) g) = Ok (AStr "Tails")) ∧
  (∀ bias g, ∃ x,
      fst (Coin.sample g) = Ok x ∧ (-1 <= x)%Q ∧ (x <= 1)%Q ∧
      (fst (draw (Coin.__init__ bias) g) = Ok (AStr "Heads")
         ↔ (x < number_value bias)%Q) ∧
      (fst (draw (Coin.__init__ bias) g) = Ok (AStr "Tails")
         ↔ ¬ (x < number_value bias)%Q)) ∧
  (∀ bias, let b := number_value bias in
      (-1 <= b)%Q → (b <= 1)%Q →
      ((b + 1) / 2 <= heads_probability (Coin.__init__ bias))%Q ∧
      (heads_probability (Coin.__init__ bias)
         < (b + 1) / 2 + 1 / inject_Z (2 ^ 53))%Q ∧
      ((∃ m : Z, b == m # 2 ^ 52)%Q →
         (heads_probability (Coin.__init__ bias) == (b + 1) / 2)%Q)).
Proof.
  split; [|split; [|split]].
  - intros g. destruct (Coin_one_always_heads g) as [g' E]. by rewrite E.
  - intros g. destruct (Coin_minus_one_always_tails g) as [g' E]. by rewrite E.
  - intros bias g. exists (sample_at (tape g (pos g))).
    destruct (sample_at_range (tape g (pos g))) as [Hlo Hhi].
    split; [reflexivity|]. split; [done|]. split; [by apply Qlt_le_weak|].
    rewrite Coin_draw_run. cbn [fst].
    rewrite <- (is_heads_iff (Coin.__init__ bias)).
    destruct (Coin.is_heads _ _); split; split; congruence.
  - intros bias. apply (heads_probability_bounds (Coin.__init__ bias)).
Qed.

(** C6 as stated fails for a bias between two samples: the coin of bias
    [2^-60] shows heads on [2^52 + 1] of the [2^53] samples, which is not
    [(bias + 1) / 2]. *)
Lemma Coin_draw_bias_counterexample :
  let bias := NFloat (1 # 2 ^ 60) "8.673617379884035e-19" in
  (-1 <= number_value bias)%Q ∧ (number_value bias <= 1)%Q ∧
  heads_count (Coin.__init__ bias) = 2 ^ 52 + 1 ∧
  ¬ (heads_probability (Coin.__init__ bias) == (number_value bias + 1) / 2)%Q.
Proof.
  intros bias.
  assert (Hlo : (-1 <= number_value (Coin.bias (Coin.__init__ bias)))%Q)
    by by vm_compute.
  assert (Hhi : (number_value (Coin.bias (Coin.__init__ bias)) <= 1)%Q)
    by by vm_compute.
  split; [done|]. split; [done|].
  unfold heads_probability. rewrite (heads_count_threshold _ Hlo Hhi).
  split; [by vm_compute|]. by vm_compute.
Qed.

Example Coin_three_quarters :
  (heads_probability (Coin.__init__ (NFloat (3 # 4) "0.75")) == 7 # 8)%Q.
Proof.
  destruct (heads_probability_bounds (Coin.__init__ (NFloat (3 # 4) "0.75")))
    as (_ & _ & Hex); [done.. |].
  rewrite Hex; [reflexivity|]. by exists (3 * 2 ^ 50).
Qed.

(** ** Counter *)

Section Counter_facts.
Context {Src : Type} `{Drawable Src}.
Implicit Types (self : Counter.t Src) (n : nat) (total : Z) (g : rng).

Lemma Counter_loop_range self n total g t g' :
  Counter.loop self n total g = (Ok t, g') →
  total ≤ t ≤ total + Z.of_nat n.
Proof.
  revert total g. induction n as [|n IH]; intros total g E.
  - injection E as <- _. lia.
  - cbn [Counter.loop] in E. unfold mbind, M_bind in E.
    destruct (draw_of (Counter.source self) g) as [[r|e] g1]; [|done].
    apply IH in E. case_decide; lia.
Qed.

Lemma Counter_loop_returns self n total g :
  draws_return (Counter.source self) →
  ∃ t g', Counter.loop self n total g = (Ok t, g').
Proof.
  intros Hret. revert total g. induction n as [|n IH]; intros total g.
  - by exists total, g.
  - destruct (Hret g) as (r & g1 & E). cbn [Counter.loop].
    unfold draw_of. erewrite M_bind_ok by exact E. apply IH.
Qed.

Lemma Counter_loop_always self n total g :
  always_draws (Counter.source self) (Counter.value self) →
  ∃ g', Counter.loop self n total g = (Ok (total + Z.of_nat n), g').
Proof.
  intros Hv. revert total g. induction n as [|n IH]; intros total g.
  - exists g. by replace (total + Z.of_nat 0) with total by lia.
  - destruct (Hv g) as (g1 & E). cbn [Counter.loop].
    unfold draw_of. erewrite M_bind_ok by exact E.
    rewrite decide_True by done.
    destruct (IH (total + 1) g1) as [g' ->]. exists g'.
    by replace (total + 1 + Z.of_nat n) with (total + Z.of_nat (S n)) by lia.
Qed.

Lemma Counter_draw_unfold (self : Counter.t Src) g :
  draw self g =
    (total ← Counter.loop self (Z.to_nat (Counter.nDraws self)) 0;
     mret (AInt total)) g.
Proof. reflexivity. Qed.

(** A counter over a source whose draws return is such a source. *)
Lemma Counter_draws_return (src : Src) v k :
  draws_return src → draws_return (Counter.__init__ src v k).
Proof.
  intros Hret g. rewrite Counter_draw_unfold.
  destruct (Counter_loop_returns (Counter.__init__ src v k)
              (Z.to_nat k) 0 g Hret) as (t & g' & E).
  erewrite M_bind_ok by exact E. by eexists _, _.
Qed.
End Counter_facts.

(** C7: for a count [k] that is not negative, a value [Counter(source, v,
    k).draw()] returns is an integer between 0 and [k]; it does return
    when the draws of the wrapped source return; and when every draw of
    the wrapped source is [v] the result is [k]. *)
Theorem Counter_draw_range {Src} `{Drawable Src} (src : Src) (v : atom) (k : Z) (g : rng) :
  0 ≤ k →
  (∀ r, fst (draw (Counter.__init__ src v k) g) = Ok r →
        ∃ t, r = AInt t ∧ 0 ≤ t ≤ k) ∧
  (draws_return src →
   ∃ t, fst (draw (Counter.__init__ src v k) g) = Ok (AInt t) ∧ 0 ≤ t ≤ k) ∧
  (always_draws src v → fst (draw (Counter.__init__ src v k) g) = Ok (AInt k)).
Proof.
  intros Hk. rewrite Counter_draw_unfold. cbn [Counter.nDraws Counter.__init__].
  split; [|split].
  - intros r. unfold mbind, M_bind.
    destruct (Counter.loop _ _ _ g) as [[t|e] g'] eqn:E; [|done].
    cbn. intros [= <-]. exists t. split; [done|].
    apply Counter_loop_range in E. lia.
  - intros Hret.
    destruct (Counter_loop_returns (Counter.__init__ src v k)
                (Z.to_nat k) 0 g Hret) as (t & g' & E).
    erewrite M_bind_ok by exact E. exists t. split; [done|].
    apply Counter_loop_range in E. lia.
  - intros Hv.
    destruct (Counter_loop_always (Counter.__init__ src v k)
                (Z.to_nat k) 0 g Hv) as (g' & E).
    erewrite M_bind_ok by exact E.
    by replace (0 + Z.of_nat (Z.to_nat k)) with k by lia.
Qed.

Lemma Counter_draw_range_witness :
  fst (draw (Counter.__init__ (Coin.__init__ (NInt 1)) (AStr "Heads") 10) g0)
    = Ok (AInt 10).
Proof.
  apply (Counter_draw_range (Coin.__init__ (NInt 1)) (AStr "Heads") 10 g0);
    [lia | apply Coin_one_always_heads].
Defined.

(** ** Sums over dictionaries *)

#[export] Instance Zsum_perm : Proper ((≡ₚ) ==> (=)) Zsum.
Proof.
  intros l1 l2 Hp. induction Hp as [|x l1 l2 _ IH|x y l|l1 l2 l3 _ IH1 _ IH2];
    cbn; unfold Zsum in *; lia.
Qed.

Lemma Zsum_app l1 l2 : Zsum (l1 ++ l2) = Zsum l1 + Zsum l2.
Proof. induction l1 as [|x l1 IH]; cbn; unfold Zsum in *; lia. Qed.

Section map_sum.
Context {V : Type} (f : V → Z).
Implicit Types (d : gmap atom V).

Lemma map_sum_empty : map_sum f (∅ : gmap atom V) = 0.
Proof. unfold map_sum, values. by rewrite map_to_list_empty. Qed.

Lemma map_sum_insert_fresh d k v :
  d !! k = None → map_sum f (<[k := v]> d) = f v + map_sum f d.
Proof.
  intros Hk. unfold map_sum, values.
  by rewrite (map_to_list_insert d k v Hk).
Qed.

Lemma map_sum_delete d k v :
  d !! k = Some v → map_sum f d = f v + map_sum f (delete k d).
Proof.
  intros Hk.
  rewrite <- (map_sum_insert_fresh (delete k d) k v) by apply lookup_delete_eq.
  by rewrite insert_delete_id.
Qed.

Lemma map_sum_insert d k v :
  map_sum f (<[k := v]> d)
    = f v + map_sum f d - default 0 (f <$> d !! k).
Proof.
  destruct (d !! k) as [x|] eqn:Hk; cbn.
  - rewrite (map_sum_delete d k x Hk), <- (insert_delete_eq d).
    rewrite map_sum_insert_fresh by apply lookup_delete_eq. lia.
  - rewrite map_sum_insert_fresh by done. lia.
Qed.
End map_sum.

(** ** Recording one draw *)

Lemma cell_count_row dd rn row cn :
  dd !! rn = Some row → cell_count dd rn cn = default 0 (row !! cn).
Proof. intros E. unfold cell_count. by rewrite E. Qed.

Lemma cell_count_absent dd rn cn : dd !! rn = None → cell_count dd rn cn = 0.
Proof. intros E. unfold cell_count. by rewrite E. Qed.

(** [_add] overwrites one row with that row plus one in one cell. *)
Lemma add_count_insert name result (dd : accum) :
  Trial.add_count name result dd =
    <[result := <[name := cell_count dd result name + 1]>
                  (default ∅ (dd !! result))]> dd.
Proof.
  unfold Trial.add_count. cbv zeta.
  destruct (decide (dd !! result = None)) as [E|E].
  - rewrite lookup_total_insert_eq, insert_insert_eq, E.
    by rewrite cell_count_absent.
  - destruct (dd !! result) as [row|] eqn:Hrow; [|done].
    rewrite (lookup_total_correct dd result row Hrow).
    by rewrite (cell_count_row dd result row).
Qed.

Lemma add_count_cell name result dd rn cn :
  cell_count (Trial.add_count name result dd) rn cn =
    cell_count dd rn cn + (if decide (rn = result ∧ cn = name) then 1 else 0).
Proof.
  rewrite add_count_insert. unfold cell_count at 1.
  destruct (decide (rn = result)) as [->|Hr].
  - rewrite lookup_insert_eq. cbn.
    destruct (decide (cn = name)) as [->|Hc].
    + rewrite lookup_insert_eq, decide_True by done. reflexivity.
    + rewrite lookup_insert_ne by done.
      rewrite decide_False by (intros [_ ?]; done).
      unfold cell_count. destruct (dd !! result); cbn; [lia|].
      rewrite lookup_empty. cbn. lia.
  - rewrite lookup_insert_ne by done.
    rewrite decide_False by (intros [? _]; done).
    unfold cell_count. lia.
Qed.

Lemma add_count_total name result dd :
  total (Trial.add_count name result dd) = total dd + 1.
Proof.
  rewrite add_count_insert. unfold total. rewrite map_sum_insert.
  unfold row_total at 1. rewrite map_sum_insert. unfold cell_count.
  destruct (dd !! result) as [row|]; cbn.
  - fold (row_total row). destruct (row !! name); cbn; lia.
  - rewrite lookup_empty, map_sum_empty. cbn. lia.
Qed.

Lemma add_count_nonneg name result dd :
  counts_nonneg dd → counts_nonneg (Trial.add_count name result dd).
Proof.
  intros Hdd rn row cn c. rewrite add_count_insert.
  destruct (decide (rn = result)) as [->|Hr].
  - rewrite lookup_insert_eq. intros [= <-].
    destruct (decide (cn = name)) as [->|Hc].
    + rewrite lookup_insert_eq. intros [= <-].
      unfold cell_count. destruct (dd !! result) as [row|] eqn:Hrow; cbn.
      * destruct (row !! name) as [c|] eqn:Hc; cbn; [|lia].
        specialize (Hdd _ _ _ _ Hrow Hc). lia.
      * lia.
    + rewrite lookup_insert_ne by done.
      destruct (dd !! result) as [row|] eqn:Hrow; cbn.
      * apply (Hdd _ _ _ _ Hrow).
      * by rewrite lookup_empty.
  - rewrite lookup_insert_ne by done. apply Hdd.
Qed.

Lemma record_all_cons p l dd :
  record_all (p :: l) dd = record_all l (Trial.add_count p.1 p.2 dd).
Proof. reflexivity. Qed.

Lemma record_all_snoc l p dd :
  record_all (l ++ [p]) dd = Trial.add_count p.1 p.2 (record_all l dd).
Proof. unfold record_all. by rewrite foldl_app. Qed.

Lemma record_all_total l dd :
  total (record_all l dd) = total dd + Z.of_nat (length l).
Proof.
  revert dd. induction l as [|p l IH]; intros dd; [cbn; lia|].
  rewrite record_all_cons, IH, add_count_total. cbn [length]. lia.
Qed.

Lemma record_all_nonneg l dd :
  counts_nonneg dd → counts_nonneg (record_all l dd).
Proof.
  revert dd. induction l as [|p l IH]; intros dd Hdd; [done|].
  apply IH, add_count_nonneg, Hdd.
Qed.

Lemma record_all_cell l dd rn cn :
  cell_count (record_all l dd) rn cn =
    cell_count dd rn cn + Z.of_nat (length (filter (λ p, p = (cn, rn)) l)).
Proof.
  revert dd. induction l as [|[n r] l IH]; intros dd; [cbn; lia|].
  rewrite record_all_cons, IH, add_count_cell, filter_cons. cbn [fst snd].
  destruct (decide (rn = r ∧ cn = n)) as [[-> ->]|Hne].
  - rewrite decide_True by done. cbn [length]. lia.
  - rewrite decide_False by (intros [= -> ->]; by apply Hne). lia.
Qed.

(** C8: the name of a [Counter] is the name of the source it wraps; so
    two counters over sources of one name, whatever the sources, make the
    same update of the accumulator for an outcome, and both their draws
    are counted in the one cell of that name. *)
Theorem Counter_name_collides {S1 S2} `{Drawable S1} `{Drawable S2}
    (src1 : S1) (src2 : S2) (v1 v2 : atom) (k1 k2 : Z) :
  name (Counter.__init__ src1 v1 k1) = name src1 ∧
  (name src1 = name src2 →
   ∀ (result : atom) (dd : accum),
     Trial.add_count (name (Counter.__init__ src1 v1 k1)) result dd
       = Trial.add_count (name (Counter.__init__ src2 v2 k2)) result dd ∧
     cell_count
       (Trial.add_count (name (Counter.__init__ src2 v2 k2)) result
          (Trial.add_count (name (Counter.__init__ src1 v1 k1)) result dd))
       result (name src1)
       = cell_count dd result (name src1) + 2).
Proof.
  split; [reflexivity|]. intros Hn result dd.
  change (name (Counter.__init__ src1 v1 k1)) with (name src1).
  change (name (Counter.__init__ src2 v2 k2)) with (name src2).
  rewrite <- Hn. split; [reflexivity|].
  rewrite !add_count_cell, !decide_True by done. lia.
Qed.

(** ** The loop of [run] *)

Section Trial_facts.
Context {Src : Type} `{Drawable Src} {X : Type}.
Variable chooseSource : M (Trial.world X) Src.
Implicit Types (w : Trial.world X) (n : nat).

Lemma lift_random_self {A} (m : Rand A) w :
  Trial.self (snd (Trial.lift_random m w)) = Trial.self w.
Proof. unfold Trial.lift_random. by destruct (m (Trial.random w)). Qed.

(** One iteration, by cases on what the selection and the draw do. *)
Lemma step_run w :
  Trial.step chooseSource w =
    match chooseSource w with
    | (Ok src, w1) =>
        match Trial.lift_random (draw src) w1 with
        | (Ok r, w2) => Trial._add (name src) r w2
        | (Raise e, w2) => (Raise e, w2)
        end
    | (Raise e, w1) => (Raise e, w1)
    end.
Proof.
  unfold Trial.step, mbind, M_bind.
  destruct (chooseSource w) as [[src|e] w1]; [|done].
  by destruct (Trial.lift_random (draw src) w1) as [[r|e] w2].
Qed.

Lemma for_range_succ n w :
  for_range (S n) (Trial.step chooseSource) w =
    match Trial.step chooseSource w with
    | (Ok _, w') => for_range n (Trial.step chooseSource) w'
    | (Raise e, w') => (Raise e, w')
    end.
Proof. reflexivity. Qed.

Lemma run_log_length_le n w : (length (run_log chooseSource n w) ≤ n)%nat.
Proof.
  revert w. induction n as [|n IH]; intros w; cbn [run_log]; [done|].
  destruct (chooseSource w) as [[src|e] w1]; [|cbn; lia].
  destruct (Trial.lift_random (draw src) w1) as [[r|e] w2]; [|cbn; lia].
  cbn [length]. specialize (IH (snd (Trial._add (name src) r w2))). lia.
Qed.

Lemma run_log_length_ok n w :
  fst (for_range n (Trial.step chooseSource) w) = Ok tt →
  length (run_log chooseSource n w) = n.
Proof.
  revert w. induction n as [|n IH]; intros w; [done|].
  rewrite for_range_succ, step_run. cbn [run_log].
  destruct (chooseSource w) as [[src|e] w1]; [|done].
  destruct (Trial.lift_random (draw src) w1) as [[r|e] w2]; [|done].
  cbn [length]. intros Hrun. f_equal. by apply IH.
Qed.

Hypothesis chooseSource_frame : policy_frame chooseSource.

Lemma run_log_results n w :
  Trial.results (Trial.self (snd (for_range n (Trial.step chooseSource) w)))
    = record_all (run_log chooseSource n w) (Trial.results (Trial.self w)).
Proof.
  revert w. induction n as [|n IH]; intros w; [done|].
  rewrite for_range_succ, step_run. cbn [run_log].
  pose proof (chooseSource_frame w) as Hcs.
  destruct (chooseSource w) as [[src|e] w1]; [|by rewrite <- Hcs].
  pose proof (lift_random_self (draw src) w1) as Hlr.
  destruct (Trial.lift_random (draw src) w1) as [[r|e] w2]; cbn [snd] in *.
  - rewrite record_all_cons. cbn [fst snd Trial._add].
    rewrite IH. cbn. by rewrite Hlr, Hcs.
  - cbn. by rewrite Hlr, Hcs.
Qed.
End Trial_facts.

(** C1: when the selection policy leaves the accumulator alone and the
    counts are non-negative before [run(nDraws)], [nDraws >= 0], they are
    non-negative after it, and the sum of all cells has grown by the
    number of draw iterations performed (from an empty accumulator it is
    that number), which is [nDraws] when the run returns; [run(0)] on a
    fresh trial returns and leaves the accumulator empty. *)
Theorem Trial_run_counts {Src X} `{Drawable Src}
    (chooseSource : M (Trial.world X) Src) (nDraws : Z) (w : Trial.world X) :
  0 ≤ nDraws →
  policy_frame chooseSource →
  counts_nonneg (Trial.results (Trial.self w)) →
  let w' := snd (Trial.run chooseSource nDraws w) in
  let performed := Z.of_nat (length (draws_of_run chooseSource nDraws w)) in
  counts_nonneg (Trial.results (Trial.self w')) ∧
  total (Trial.results (Trial.self w'))
    = total (Trial.results (Trial.self w)) + performed ∧
  (Trial.results (Trial.self w) = ∅ →
   total (Trial.results (Trial.self w')) = performed) ∧
  0 ≤ performed ≤ nDraws ∧
  (fst (Trial.run chooseSource nDraws w) = Ok tt → performed = nDraws) ∧
  (∀ g x, Trial.run chooseSource 0 (Trial.mk_world g (Trial.__init__ x))
          = (Ok tt, Trial.mk_world g (Trial.mk ∅ x))).
Proof.
  intros Hn Hframe Hnonneg w' performed. subst w' performed.
  unfold Trial.run, draws_of_run. rewrite run_log_results by done.
  pose proof (run_log_length_le chooseSource (Z.to_nat nDraws) w) as Hle.
  split; [by apply record_all_nonneg|].
  split; [apply record_all_total|].
  split.
  { intros ->. rewrite record_all_total. unfold total at 1.
    rewrite map_sum_empty. lia. }
  split; [lia|].
  split; [|done].
  intros Hok. apply run_log_length_ok in Hok. lia.
Qed.

(** ** Uniform selection *)

Section UniformSelectionTrial_facts.
Context {Src : Type} `{Drawable Src}.
Implicit Types (w : Trial.world (list Src)) (n : nat).

Lemma chooseSource_self w :
  Trial.self (snd (UniformSelectionTrial.chooseSource w)) = Trial.self w.
Proof. apply lift_random_self. Qed.

Lemma chooseSource_frame : policy_frame (UniformSelectionTrial.chooseSource (Src := Src)).
Proof. intros w. by rewrite chooseSource_self. Qed.

Lemma random_choice_run (seq : list Src) g :
  seq ≠ [] →
  ∃ src, src ∈ seq ∧
         random_choice seq g = (Ok src, mk_rng (tape g) (S (pos g))).
Proof.
  intros Hne. destruct seq as [|x seq']; [done|]. clear Hne.
  set (seq := x :: seq').
  change (random_choice seq g) with
    ((i ← randbelow (Z.of_nat (length seq));
      mret (default x (seq !! Z.to_nat i))) g).
  rewrite (M_bind_ok _ _ _ _ _ (randbelow_run _ g)).
  set (i := tape g (pos g) mod Z.of_nat (length seq)).
  assert (Hi : 0 ≤ i < Z.of_nat (length seq))
    by (apply Z.mod_pos_bound; cbn [length seq]; lia).
  destruct (lookup_lt_is_Some_2 seq (Z.to_nat i)) as [src Hsrc]; [lia|].
  exists src. split; [by eapply list_elem_of_lookup_2|].
  cbn. by rewrite Hsrc.
Qed.

Lemma chooseSource_run w :
  UniformSelectionTrial.sources (Trial.self w) ≠ [] →
  ∃ src, src ∈ UniformSelectionTrial.sources (Trial.self w) ∧
    UniformSelectionTrial.chooseSource w =
      (Ok src, Trial.mk_world (mk_rng (tape (Trial.random w))
                                      (S (pos (Trial.random w))))
                              (Trial.self w)).
Proof.
  intros Hne.
  destruct (random_choice_run _ (Trial.random w) Hne) as (src & Hin & E).
  exists src. split; [done|].
  unfold UniformSelectionTrial.chooseSource, Trial.lift_random. by rewrite E.
Qed.

Lemma step_sources w :
  Trial.attrs (Trial.self
    (snd (Trial.step UniformSelectionTrial.chooseSource w)))
  = Trial.attrs (Trial.self w).
Proof.
  rewrite step_run. pose proof (chooseSource_self w) as Hcs.
  destruct (UniformSelectionTrial.chooseSource w) as [[src|e] w1];
    cbn [snd] in *; [|by rewrite Hcs].
  pose proof (lift_random_self (draw src) w1) as Hlr.
  destruct (Trial.lift_random (draw src) w1) as [[r|e] w2];
    cbn [snd] in *; cbn; by rewrite Hlr, Hcs.
Qed.

Lemma run_sources n w :
  Trial.attrs (Trial.self
    (snd (for_range n (Trial.step UniformSelectionTrial.chooseSource) w)))
  = Trial.attrs (Trial.self w).
Proof.
  revert w. induction n as [|n IH]; intros w; [done|].
  rewrite for_range_succ. pose proof (step_sources w) as Hs.
  destruct (Trial.step UniformSelectionTrial.chooseSource w) as [[[]|e] w1];
    cbn [snd] in *; [|done].
  by rewrite IH.
Qed.

(** With sources to choose from, all of which draw normally, a run
    returns normally. *)
Lemma step_returns w :
  UniformSelectionTrial.sources (Trial.self w) ≠ [] →
  Forall draws_return (UniformSelectionTrial.sources (Trial.self w)) →
  ∃ w1, Trial.step UniformSelectionTrial.chooseSource w = (Ok tt, w1).
Proof.
  intros Hne Hall. rewrite step_run.
  destruct (chooseSource_run w Hne) as (src & Hin & ->).
  rewrite Forall_forall in Hall.
  destruct (Hall src Hin (mk_rng (tape (Trial.random w))
                                 (S (pos (Trial.random w))))) as (r & g' & E).
  unfold Trial.lift_random. cbn [Trial.random Trial.self]. rewrite E.
  by eexists.
Qed.

Lemma run_returns n w :
  UniformSelectionTrial.sources (Trial.self w) ≠ [] →
  Forall draws_return (UniformSelectionTrial.sources (Trial.self w)) →
  fst (for_range n (Trial.step UniformSelectionTrial.chooseSource) w) = Ok tt.
Proof.
  revert w. induction n as [|n IH]; intros w Hne Hall; [done|].
  rewrite for_range_succ. pose proof (step_sources w) as Hs.
  destruct (step_returns w Hne Hall) as [w1 E]. rewrite E in *.
  cbn [snd] in Hs.
  apply IH; unfold UniformSelectionTrial.sources; by rewrite Hs.
Qed.
End UniformSelectionTrial_facts.

Lemma counts_nonneg_empty : counts_nonneg ∅.
Proof. intros rn row cn c. by rewrite lookup_empty. Qed.

Lemma Trial_run_counts_witness :
  total (Trial.results (Trial.self (snd (UniformSelectionTrial.run 30 dice_world))))
    = 30.
Proof.
  destruct (Trial_run_counts UniformSelectionTrial.chooseSource 30 dice_world)
    as (_ & _ & Htotal & _ & Hdone & _);
    [lia | apply chooseSource_frame | apply counts_nonneg_empty |].
  unfold UniformSelectionTrial.run. rewrite Htotal, Hdone; by vm_compute.
Defined.

(** C9, as the code has it: a run of a uniform-selection trial leaves the
    collection of sources, with the parameters and names in it, as it
    was, and the accumulator becomes the old one with the draws of the run
    recorded. What else a trial can reach is the generator of the [random]
    module, which the run does advance. *)
Theorem Trial_run_frame {Src} `{Drawable Src}
    (nDraws : Z) (w : Trial.world (list Src)) :
  let w' := snd (UniformSelectionTrial.run nDraws w) in
  UniformSelectionTrial.sources (Trial.self w')
    = UniformSelectionTrial.sources (Trial.self w) ∧
  Trial.results (Trial.self w')
    = record_all (draws_of_run UniformSelectionTrial.chooseSource nDraws w)
        (Trial.results (Trial.self w)).
Proof.
  cbv zeta. split.
  - apply run_sources.
  - apply run_log_results, chooseSource_frame.
Qed.

(** C9, as stated, fails on the generator: after one draw from the box of
    dice the module-level generator is not in the state it was in. *)
Lemma Trial_run_frame_counterexample : ¬ run_touches_results_only 1 dice_world.
Proof.
  intros [_ E]. apply (f_equal pos) in E. vm_compute in E. discriminate.
Qed.

(** ** Sorting labels *)

Lemma string_compare_lt s u : String.compare s u = Lt ↔ OrderedTypeEx.String_as_OT.lt s u.
Proof. apply OrderedTypeEx.String_as_OT.cmp_lt. Qed.

Lemma string_leb_iff s u :
  String.leb s u = true ↔ String.compare s u = Lt ∨ s = u.
Proof.
  unfold String.leb.
  pose proof (OrderedTypeEx.String_as_OT.cmp_eq s u) as Heq.
  unfold OrderedTypeEx.String_as_OT.cmp in Heq.
  destruct (String.compare s u).
  - split; [intros _; right; by apply Heq | done].
  - split; [by left | done].
  - split; [done | intros [?|Hsu]; [done | by apply Heq in Hsu]].
Qed.

Lemma string_compare_trans s u v :
  String.compare s u = Lt → String.compare u v = Lt → String.compare s v = Lt.
Proof. rewrite !string_compare_lt. apply OrderedTypeEx.String_as_OT.lt_trans. Qed.

#[export] Instance atom_le_trans : Transitive atom_le.
Proof.
  intros [x|s] [y|u] [z|v]; unfold atom_le; cbn; try done.
  - rewrite !Z.leb_le. lia.
  - rewrite !string_leb_iff. intros [H1| ->] [H2| ->]; eauto.
    left. by eapply string_compare_trans.
Qed.

#[export] Instance atom_le_total : Total atom_le.
Proof.
  intros [x|s] [y|u]; unfold atom_le; cbn; eauto.
  - rewrite !Z.leb_le. lia.
  - apply String.leb_total.
Qed.

Lemma atom_le_lt a b :
  same_kind a b = true → a ≠ b → atom_le a b → atom_lt a b.
Proof.
  destruct a as [x|s], b as [y|u]; unfold atom_le; cbn; try done.
  - rewrite Z.leb_le. intros _ Hne Hle.
    destruct (decide (x = y)) as [->|]; [done | lia].
  - rewrite string_leb_iff. intros _ Hne [Hlt| ->]; done.
Qed.

Lemma comparable_one_kind l : comparable l = true ↔ one_kind l.
Proof.
  assert (Hsym : ∀ a b, same_kind a b = same_kind b a) by by intros [] [].
  assert (Htr : ∀ a b c, same_kind a b = true → same_kind a c = true →
                         same_kind b c = true) by by intros [] [] [].
  destruct l as [|a l]; cbn.
  - split; [|done]. intros _ x y Hx. by apply elem_of_nil in Hx.
  - rewrite forallb_forall. setoid_rewrite <- list_elem_of_In. split.
    + intros Hall x y Hx Hy.
      assert (Ha : ∀ z, z ∈ a :: l → same_kind a z = true).
      { intros z [->|Hz]%elem_of_cons; [by destruct a | by apply Hall]. }
      eapply Htr; by apply Ha.
    + intros Hk x Hx. apply Hk; [left | by right].
Qed.

Lemma one_kind_perm l1 l2 : l1 ≡ₚ l2 → one_kind l1 → one_kind l2.
Proof. intros Hp Hk x y Hx Hy. apply Hk; by rewrite Hp. Qed.

Lemma StronglySorted_atom_lt l :
  one_kind l → NoDup l → StronglySorted atom_le l → StronglySorted atom_lt l.
Proof.
  intros Hk Hnd Hs. induction Hs as [|a l Hs IH Hall]; [constructor|].
  apply NoDup_cons in Hnd as [Ha Hnd]. constructor.
  - apply IH; [|done]. intros x y Hx Hy. apply Hk; by right.
  - rewrite Forall_forall in Hall |- *. intros b Hb.
    apply atom_le_lt; [apply Hk; [left | by right] | | by apply Hall].
    intros ->. done.
Qed.

Lemma sorted_ok l :
  comparable l = true → NoDup l →
  ∃ l', sorted l = Ok l' ∧ l' ≡ₚ l ∧ NoDup l' ∧ StronglySorted atom_lt l'.
Proof.
  intros Hc Hnd. exists (merge_sort atom_le l). unfold sorted. rewrite Hc.
  pose proof (merge_sort_Permutation atom_le l) as Hp.
  split; [done|]. split; [done|].
  assert (NoDup (merge_sort atom_le l)) by by rewrite Hp.
  split; [done|]. apply StronglySorted_atom_lt; [|done|].
  - eapply one_kind_perm; [symmetry; exact Hp|]. by apply comparable_one_kind.
  - apply StronglySorted_merge_sort; apply _.
Qed.

Lemma sorted_raises l : comparable l = false → sorted l = Raise TypeError.
Proof. intros Hc. unfold sorted. by rewrite Hc. Qed.

(** ** Filling the array *)

Lemma list_index_elem x l :
  x ∈ l → ∃ i, list_index x l = Ok i ∧ l !! i = Some x.
Proof.
  induction l as [|y l IH]; [by intros ?%elem_of_nil|].
  intros Hx. cbn [list_index].
  destruct (decide (y = x)) as [->|Hne]; [by exists O|].
  apply elem_of_cons in Hx as [->|Hx]; [done|].
  destruct (IH Hx) as (i & -> & Hi). by exists (S i).
Qed.

Lemma shape_zeros rows cols : shape rows cols (np_zeros rows cols).
Proof.
  unfold shape, np_zeros. split; [by rewrite length_replicate|].
  apply Forall_replicate, length_replicate.
Qed.

Lemma cell_zeros rows cols r c :
  (r < rows)%nat → (c < cols)%nat → cell (np_zeros rows cols) r c = Some 0%Q.
Proof.
  intros Hr Hc. unfold cell, np_zeros.
  rewrite lookup_replicate_2 by done. cbn. by rewrite lookup_replicate_2.
Qed.

Lemma shape_row rows cols ret r row :
  shape rows cols ret → ret !! r = Some row → length row = cols.
Proof.
  intros [_ Hall] Hr. rewrite Forall_forall in Hall.
  apply Hall. by eapply list_elem_of_lookup_2.
Qed.

Lemma setitem_ok rows cols ret ri ci v :
  shape rows cols ret → (ri < rows)%nat → (ci < cols)%nat →
  ∃ ret', setitem ret ri ci v = Ok ret' ∧ shape rows cols ret' ∧
    ∀ r c, cell ret' r c =
           if decide (r = ri ∧ c = ci) then Some v else cell ret r c.
Proof.
  intros Hshape Hri Hci. pose proof Hshape as [Hlen Hall].
  destruct (lookup_lt_is_Some_2 ret ri) as [row Hrow]; [lia|].
  pose proof (shape_row _ _ _ _ _ Hshape Hrow) as Hlrow.
  exists (<[ri := <[ci := v]> row]> ret). unfold setitem. rewrite Hrow.
  rewrite decide_True by lia. split; [done|]. split.
  - split; [by rewrite length_insert|].
    apply Forall_insert; [done|]. by rewrite length_insert.
  - intros r c. unfold cell.
    destruct (decide (r = ri)) as [->|Hr].
    + rewrite list_lookup_insert_eq by lia. cbn. rewrite Hrow. cbn.
      destruct (decide (c = ci)) as [->|Hc].
      * rewrite decide_True by done. apply list_lookup_insert_eq. lia.
      * rewrite decide_False by (intros [_ ?]; done).
        by apply list_lookup_insert_ne.
    + rewrite decide_False by (intros [? _]; done).
      by rewrite list_lookup_insert_ne.
Qed.

Section fill.
Variables (rowNames colNames : list atom).
Hypothesis rowNames_NoDup : NoDup rowNames.
Hypothesis colNames_NoDup : NoDup colNames.

#[local] Abbreviation rows := (length rowNames).
#[local] Abbreviation cols := (length colNames).

Lemma fill_row_ok ri its ret :
  (ri < rows)%nat → NoDup its.*1 → (∀ cn, cn ∈ its.*1 → cn ∈ colNames) →
  shape rows cols ret →
  ∃ ret', fill_row colNames ri its ret = Ok ret' ∧ shape rows cols ret' ∧
    ∀ r c cn, colNames !! c = Some cn →
      cell ret' r c =
        if decide (r = ri) then
          match (list_to_map its : gmap atom Z) !! cn with
          | Some v => Some (inject_Z v)
          | None => cell ret r c
          end
        else cell ret r c.
Proof.
  intros Hri. revert ret.
  induction its as [|[cn0 v0] its IH]; intros ret Hnd Hin Hshape.
  - exists ret. split; [done|]. split; [done|]. intros r c cn _.
    rewrite list_to_map_nil, lookup_empty. by case_decide.
  - rewrite fmap_cons in Hnd. cbn [fst] in Hnd.
    apply NoDup_cons in Hnd as [Hcn0 Hnd].
    destruct (list_index_elem cn0 colNames) as (ci & Eci & Hci);
      [apply Hin; left|].
    destruct (setitem_ok rows cols ret ri ci (inject_Z v0) Hshape Hri)
      as (ret1 & Eset & Hshape1 & Hcell1);
      [by eapply lookup_lt_Some|].
    destruct (IH ret1 Hnd) as (ret' & Efill & Hshape' & Hcell');
      [intros cn Hcn; apply Hin; by right | done |].
    exists ret'. split.
    { unfold fill_row in *. cbn [for_each]. rewrite Eci. cbn.
      rewrite Eset. exact Efill. }
    split; [done|]. intros r c cn Hc. rewrite (Hcell' r c cn Hc).
    rewrite Hcell1, list_to_map_cons.
    destruct (decide (r = ri)) as [->|Hr];
      [|by rewrite decide_False by (intros [? _]; done)].
    destruct (decide (cn = cn0)) as [->|Hne].
    + rewrite lookup_insert_eq.
      assert (c = ci) as ->
        by exact (NoDup_lookup colNames c ci cn0 colNames_NoDup Hc Hci).
      rewrite (proj1 (not_elem_of_list_to_map its cn0)) by done.
      by rewrite decide_True.
    + rewrite lookup_insert_ne by done.
      destruct (list_to_map its !! cn); [done|].
      rewrite decide_False; [done|]. intros [_ ->]. congruence.
Qed.

Lemma fill_ok its ret :
  NoDup its.*1 → (∀ rn, rn ∈ its.*1 → rn ∈ rowNames) →
  (∀ rn row cn, (rn, row) ∈ its → is_Some (row !! cn) → cn ∈ colNames) →
  shape rows cols ret →
  ∃ ret', fill rowNames colNames its ret = Ok ret' ∧ shape rows cols ret' ∧
    ∀ r c rn cn, rowNames !! r = Some rn → colNames !! c = Some cn →
      cell ret' r c =
        match (list_to_map its : accum) !! rn ≫= (λ row, row !! cn) with
        | Some v => Some (inject_Z v)
        | None => cell ret r c
        end.
Proof.
  revert ret.
  induction its as [|[rn0 row0] its IH]; intros ret Hnd Hin Hcols Hshape.
  - exists ret. split; [done|]. split; [done|]. intros r c rn cn _ _.
    by rewrite list_to_map_nil, lookup_empty.
  - rewrite fmap_cons in Hnd. cbn [fst] in Hnd.
    apply NoDup_cons in Hnd as [Hrn0 Hnd].
    destruct (list_index_elem rn0 rowNames) as (ri & Eri & Hri);
      [apply Hin; left|].
    destruct (fill_row_ok ri (items row0) ret) as (ret1 & Erow & Hshape1 & Hcell1);
      [by eapply lookup_lt_Some | apply NoDup_fst_map_to_list | | done |].
    { intros cn Hcn. apply (Hcols rn0 row0); [left|].
      apply list_elem_of_fmap in Hcn as ([cn' v] & -> & Hv).
      apply elem_of_map_to_list in Hv. by exists v. }
    destruct (IH ret1 Hnd) as (ret' & Efill & Hshape' & Hcell');
      [intros rn Hrn; apply Hin; by right
      |intros rn row cn Hrow; apply (Hcols rn row cn); by right | done |].
    exists ret'. split.
    { unfold fill in *. cbn [for_each]. rewrite Eri. cbn.
      unfold fill_row in Erow. rewrite Erow. exact Efill. }
    split; [done|]. intros r c rn cn Hr Hc.
    rewrite (Hcell' r c rn cn Hr Hc), (Hcell1 r c cn Hc).
    unfold items. rewrite list_to_map_to_list, list_to_map_cons.
    destruct (decide (rn = rn0)) as [->|Hne].
    + rewrite lookup_insert_eq.
      assert (r = ri) as ->
        by exact (NoDup_lookup rowNames r ri rn0 rowNames_NoDup Hr Hri).
      rewrite (proj1 (not_elem_of_list_to_map its rn0)) by done.
      cbn. by rewrite decide_True.
    + rewrite lookup_insert_ne by done.
      destruct (list_to_map its !! rn ≫= _); [done|].
      rewrite decide_False; [done|]. intros ->. congruence.
Qed.
End fill.

(** ** The table *)

Lemma elem_of_keys {V} (d : gmap atom V) k : k ∈ keys d ↔ is_Some (d !! k).
Proof.
  unfold keys. rewrite list_elem_of_fmap. split.
  - intros ([k' v] & -> & Hv). apply elem_of_map_to_list in Hv. by exists v.
  - intros [v Hv]. exists (k, v). split; [done|]. by apply elem_of_map_to_list.
Qed.

Lemma elem_of_values {V} (d : gmap atom V) v : v ∈ values d ↔ ∃ k, d !! k = Some v.
Proof.
  unfold values. rewrite list_elem_of_fmap. split.
  - intros ([k v'] & -> & Hv). apply elem_of_map_to_list in Hv. by exists k.
  - intros [k Hv]. exists (k, v). split; [done|]. by apply elem_of_map_to_list.
Qed.

Lemma elem_of_update_all (l : list (gmap atom Z)) (s0 : gset atom) cn :
  cn ∈ foldl (λ colNames r, colNames ∪ list_to_set (keys r)) s0 l
  ↔ cn ∈ s0 ∨ ∃ r, r ∈ l ∧ is_Some (r !! cn).
Proof.
  revert s0. induction l as [|r l IH]; intros s0; cbn [foldl].
  - split; [by left|]. intros [?|(r & Hr & _)]; [done|].
    by apply elem_of_nil in Hr.
  - rewrite IH, elem_of_union, elem_of_list_to_set, elem_of_keys. split.
    + intros [[?|?]|(r' & Hr' & ?)]; [by left | right | right].
      * exists r. split; [left | done].
      * exists r'. split; [by right | done].
    + intros [?|(r' & [->|Hr']%elem_of_cons & ?)];
        [by left; left | by left; right | right; by exists r'].
Qed.

Lemma elem_of_column_set dd cn :
  cn ∈ column_set dd ↔ ∃ rn row, dd !! rn = Some row ∧ is_Some (row !! cn).
Proof.
  unfold column_set. rewrite elem_of_update_all. split.
  - intros [?|(row & [rn Hrow]%elem_of_values & Hcn)]; [set_solver|].
    by exists rn, row.
  - intros (rn & row & Hrow & Hcn). right. exists row.
    split; [|done]. apply elem_of_values. by exists rn.
Qed.

Lemma shape_dense dd rowNames colNames :
  shape (length rowNames) (length colNames) (dense dd rowNames colNames).
Proof.
  unfold shape, dense. split; [by rewrite length_fmap|].
  apply Forall_fmap, Forall_forall. intros rn _. cbn. by rewrite length_fmap.
Qed.

Lemma cell_dense dd rowNames colNames r c rn cn :
  rowNames !! r = Some rn → colNames !! c = Some cn →
  cell (dense dd rowNames colNames) r c = Some (inject_Z (cell_count dd rn cn)).
Proof.
  intros Hr Hc. unfold cell, dense.
  rewrite list_lookup_fmap, Hr. cbn. by rewrite list_lookup_fmap, Hc.
Qed.

Lemma matrix_eq_cells rows cols (m1 m2 : matrix) :
  shape rows cols m1 → shape rows cols m2 →
  (∀ r c, (r < rows)%nat → (c < cols)%nat → cell m1 r c = cell m2 r c) →
  m1 = m2.
Proof.
  intros H1 H2 Hcells. apply list_eq_same_length with rows;
    [apply H2 | apply H1 |].
  intros r row1 row2 Hr Hrow1 Hrow2.
  apply list_eq_same_length with cols;
    [by eapply (shape_row _ _ m2) | by eapply (shape_row _ _ m1) |].
  intros c x y Hc Hx Hy. specialize (Hcells r c Hr Hc).
  unfold cell in Hcells. rewrite Hrow1, Hrow2 in Hcells. cbn in Hcells.
  congruence.
Qed.

Lemma dictsToTbl_unfold dd :
  dictsToTbl dd =
    (rowNames ← sorted (keys dd);
     colNames ← sorted (elements (column_set dd));
     ret ← fill rowNames colNames (items dd)
              (np_zeros (length rowNames) (length colNames));
     Ok (ret, rowNames, colNames)).
Proof. reflexivity. Qed.

(** What [dictsToTbl] returns, when the labels can be ordered. *)
Lemma dictsToTbl_ok dd :
  comparable (keys dd) = true →
  comparable (elements (column_set dd)) = true →
  ∃ rowNames colNames,
    dictsToTbl dd = Ok (dense dd rowNames colNames, rowNames, colNames) ∧
    rowNames ≡ₚ keys dd ∧ NoDup rowNames ∧ StronglySorted atom_lt rowNames ∧
    colNames ≡ₚ elements (column_set dd) ∧ NoDup colNames ∧
    StronglySorted atom_lt colNames.
Proof.
  intros Hrows Hcols.
  destruct (sorted_ok (keys dd) Hrows) as (rowNames & Er & Hpr & Hndr & Hsr);
    [apply NoDup_fst_map_to_list|].
  destruct (sorted_ok (elements (column_set dd)) Hcols)
    as (colNames & Ec & Hpc & Hndc & Hsc); [apply NoDup_elements|].
  exists rowNames, colNames. split; [|done].
  destruct (fill_ok rowNames colNames Hndr Hndc (items dd)
              (np_zeros (length rowNames) (length colNames)))
    as (ret & Efill & Hshape & Hcell).
  - apply NoDup_fst_map_to_list.
  - intros rn Hrn. by rewrite Hpr.
  - intros rn row cn Hrow Hcn. rewrite Hpc. apply elem_of_elements.
    apply elem_of_column_set. exists rn, row.
    split; [by apply elem_of_map_to_list | done].
  - apply shape_zeros.
  - rewrite dictsToTbl_unfold, Er. cbn. rewrite Ec. cbn. rewrite Efill. cbn.
    do 3 f_equal. apply (matrix_eq_cells _ _ _ _ Hshape (shape_dense _ _ _)).
    intros r c Hr Hc.
    destruct (lookup_lt_is_Some_2 rowNames r Hr) as [rn Hrn].
    destruct (lookup_lt_is_Some_2 colNames c Hc) as [cn Hcn].
    rewrite (Hcell r c rn cn Hrn Hcn), (cell_dense dd _ _ r c rn cn Hrn Hcn).
    unfold items. rewrite list_to_map_to_list, cell_zeros by done.
    unfold cell_count. by destruct (dd !! rn ≫= _).
Qed.

Lemma dictsToTbl_ok_inv dd ret rowNames colNames :
  dictsToTbl dd = Ok (ret, rowNames, colNames) →
  comparable (keys dd) = true ∧ comparable (elements (column_set dd)) = true.
Proof.
  rewrite dictsToTbl_unfold. unfold sorted.
  destruct (comparable (keys dd)); [|done].
  by destruct (comparable (elements (column_set dd))).
Qed.

Lemma dictsToTbl_raises dd :
  comparable (keys dd) = false ∨ comparable (elements (column_set dd)) = false →
  dictsToTbl dd = Raise TypeError.
Proof.
  rewrite dictsToTbl_unfold. unfold sorted.
  destruct (comparable (keys dd)); [|done].
  by destruct (comparable (elements (column_set dd))); intros [?|?].
Qed.

Example dictsToTbl_example :
  dictsToTbl dd_example =
    Ok ([[5; 0; 0]; [0; 2; 1]]%Q, [AInt 3; AInt 6], [AInt 4; AInt 6; AInt 8]).
Proof. reflexivity. Qed.

Example dictsToTbl_mixed :
  dictsToTbl {[ AInt 1 := {[ AStr "FairCoin" := 1 ]};
                AStr "Heads" := {[ AStr "FairCoin" := 1 ]} ]}
    = Raise TypeError.
Proof. reflexivity. Qed.

(** ** Normalisation *)

Lemma Qsum_cons x l : Qsum (x :: l) = (x + Qsum l)%Q.
Proof. reflexivity. Qed.

Lemma Qsum_app l1 l2 : (Qsum (l1 ++ l2) == Qsum l1 + Qsum l2)%Q.
Proof.
  induction l1 as [|x l1 IH].
  - change (Qsum l2 == 0 + Qsum l2)%Q. ring.
  - change (Qsum (x :: (l1 ++ l2)) == Qsum (x :: l1) + Qsum l2)%Q.
    rewrite !Qsum_cons, IH. ring.
Qed.

Lemma Qsum_scale (s : Q) l :
  (Qsum ((λ x, x / s) <$> l) == Qsum l / s)%Q.
Proof.
  unfold Qdiv. induction l as [|x l IH].
  - change (0 == 0 * / s)%Q. ring.
  - rewrite fmap_cons, !Qsum_cons, IH. ring.
Qed.

Lemma np_divide_nonzero x s : ¬ (s == 0)%Q → np_divide x s = Finite (x / s).
Proof.
  intros Hs. unfold np_divide.
  destruct (Qeq_bool s 0) eqn:E; [|done]. by apply Qeq_bool_iff in E.
Qed.

Lemma np_divide_zero x s : (s == 0)%Q → undefined (np_divide x s).
Proof.
  intros Hs. unfold np_divide. apply Qeq_bool_iff in Hs. rewrite Hs.
  destruct (Qeq_bool x 0); [done|]. by destruct (Qltb 0 x).
Qed.

Lemma norm_lookup ar r row :
  ar !! r = Some row →
  norm ar !! r = Some ((λ x, np_divide x (Qsum row)) <$> row).
Proof.
  intros Hr. unfold norm, np_divide_broadcast, np_sum_axis1_keepdims.
  by rewrite lookup_zip_with, list_lookup_fmap, Hr.
Qed.

Example norm_example :
  norm [[5; 0; 0]; [0; 2; 1]; [0; 0; 0]]%Q =
    [[Finite (5 / 5); Finite (0 / 5); Finite (0 / 5)];
     [Finite (0 / 3); Finite (2 / 3); Finite (1 / 3)];
     [NaN; NaN; NaN]]%Q.
Proof. reflexivity. Qed.

(** ** Sums of the table *)

Lemma Zsum_nonneg l : Forall (λ z, 0 ≤ z) l → 0 ≤ Zsum l.
Proof. induction 1 as [|z l Hz _ IH]; cbn; unfold Zsum in *; lia. Qed.

Lemma row_total_nonneg (row : gmap atom Z) :
  (∀ cn c, row !! cn = Some c → 0 ≤ c) → 0 ≤ row_total row.
Proof.
  intros Hrow. apply Zsum_nonneg, Forall_fmap, Forall_forall.
  intros c [cn Hc]%elem_of_values. cbn. by eapply Hrow.
Qed.

Lemma row_total_pos (row : gmap atom Z) :
  row ≠ ∅ → (∀ cn c, row !! cn = Some c → 1 ≤ c) → 1 ≤ row_total row.
Proof.
  intros Hne Hrow. destruct (map_choose row Hne) as (cn & c & Hc).
  unfold row_total. rewrite (map_sum_delete id row cn c Hc).
  pose proof (Hrow cn c Hc).
  assert (0 ≤ row_total (delete cn row)); [|unfold row_total, id in *; lia].
  apply row_total_nonneg. intros cn' c' [_ Hc']%lookup_delete_Some.
  specialize (Hrow cn' c' Hc'). lia.
Qed.

Lemma Qsum_inject_Z (f : atom → Z) l :
  (Qsum ((λ cn, inject_Z (f cn)) <$> l) == inject_Z (Zsum (f <$> l)))%Q.
Proof.
  induction l as [|cn l IH]; [done|].
  rewrite !fmap_cons, Qsum_cons, IH.
  change (Zsum (f cn :: (f <$> l))) with (f cn + Zsum (f <$> l)).
  by rewrite inject_Z_plus.
Qed.

(** Summing the lookups of a row over a duplicate-free list of columns
    that has all its keys gives the sum of the row. *)
Lemma Zsum_lookups (row : gmap atom Z) colNames :
  NoDup colNames → (∀ cn, is_Some (row !! cn) → cn ∈ colNames) →
  Zsum ((λ cn, default 0 (row !! cn)) <$> colNames) = row_total row.
Proof.
  intros Hnd. revert row.
  induction Hnd as [|cn colNames Hcn Hnd IH]; intros row Hdom.
  - assert (row = ∅) as ->;
      [|unfold row_total; by rewrite (map_sum_empty id)].
    apply map_empty. intros cn. apply eq_None_not_Some.
    intros Hs. by apply Hdom, elem_of_nil in Hs.
  - rewrite fmap_cons.
    change (Zsum (?x :: ?l)) with (x + Zsum l).
    assert (Hrest : (λ cn', default 0 (row !! cn')) <$> colNames
                    = (λ cn', default 0 (delete cn row !! cn')) <$> colNames).
    { apply list_fmap_ext. intros i cn' Hi.
      rewrite lookup_delete_ne; [done|]. intros ->.
      apply Hcn. by eapply list_elem_of_lookup_2. }
    rewrite Hrest, IH.
    + destruct (row !! cn) as [c|] eqn:Hc; cbn.
      * unfold row_total. by rewrite (map_sum_delete id row cn c Hc).
      * by rewrite delete_id.
    + intros cn' [c' [Hne Hc']%lookup_delete_Some].
      assert (Hin : cn' ∈ cn :: colNames) by (apply Hdom; by eexists).
      apply elem_of_cons in Hin as [->|Hin]; done.
Qed.

Lemma Zsum_cells dd rn colNames :
  NoDup colNames →
  (∀ cn, (∃ rn row, dd !! rn = Some row ∧ is_Some (row !! cn)) → cn ∈ colNames) →
  Zsum (cell_count dd rn <$> colNames) = outcome_total dd rn.
Proof.
  intros Hnd Hdom. unfold outcome_total.
  destruct (dd !! rn) as [row|] eqn:Hrow; cbn.
  - rewrite <- (Zsum_lookups row colNames Hnd); [|by eauto].
    f_equal. apply list_fmap_ext. intros i cn _.
    by apply cell_count_row.
  - rewrite <- (map_sum_empty id). fold (row_total ∅).
    rewrite <- (Zsum_lookups ∅ colNames Hnd).
    + f_equal. apply list_fmap_ext. intros i cn _.
      by rewrite cell_count_absent, lookup_empty.
    + intros cn [c Hc]. by rewrite lookup_empty in Hc.
Qed.

Lemma Zsum_outcomes dd : Zsum (outcome_total dd <$> keys dd) = total dd.
Proof.
  unfold total, map_sum, keys, values. rewrite <- !list_fmap_compose.
  f_equal. apply list_fmap_ext. intros i [rn row] Hi. cbn.
  apply list_elem_of_lookup_2, elem_of_map_to_list in Hi.
  unfold outcome_total. by rewrite Hi.
Qed.

Lemma dense_rows dd rowNames colNames r rn :
  rowNames !! r = Some rn →
  dense dd rowNames colNames !! r
    = Some ((λ cn, inject_Z (cell_count dd rn cn)) <$> colNames).
Proof. intros Hr. unfold dense. by rewrite list_lookup_fmap, Hr. Qed.

Lemma dense_sum dd rowNames colNames :
  NoDup colNames →
  (∀ cn, (∃ rn row, dd !! rn = Some row ∧ is_Some (row !! cn)) → cn ∈ colNames) →
  (Qsum (concat (dense dd rowNames colNames))
     == inject_Z (Zsum (outcome_total dd <$> rowNames)))%Q.
Proof.
  intros Hnd Hdom. induction rowNames as [|rn rowNames IH]; [done|].
  change (dense dd (rn :: rowNames) colNames)
    with (((λ cn, inject_Z (cell_count dd rn cn)) <$> colNames)
            :: dense dd rowNames colNames).
  rewrite concat_cons, Qsum_app, IH, Qsum_inject_Z, Zsum_cells by done.
  rewrite fmap_cons.
  change (Zsum (?x :: ?l)) with (x + Zsum l). by rewrite inject_Z_plus.
Qed.

(** Row sums and grand total of the table of an accumulator. *)
Lemma dictsToTbl_sums dd ret rowNames colNames :
  dictsToTbl dd = Ok (ret, rowNames, colNames) →
  (∀ r rn, rowNames !! r = Some rn →
     ∃ row, ret !! r = Some row ∧
            (Qsum row == inject_Z (outcome_total dd rn))%Q) ∧
  (∀ r row, ret !! r = Some row →
     ∃ rn drow, rowNames !! r = Some rn ∧ dd !! rn = Some drow ∧
                (Qsum row == inject_Z (row_total drow))%Q) ∧
  (Qsum (concat ret) == inject_Z (total dd))%Q.
Proof.
  intros E. destruct (dictsToTbl_ok_inv _ _ _ _ E) as [Hrows Hcols].
  destruct (dictsToTbl_ok dd Hrows Hcols)
    as (rowNames' & colNames' & E' & Hpr & _ & _ & Hpc & Hndc & _).
  rewrite E in E'. injection E' as -> -> ->.
  assert (Hdom : ∀ cn, (∃ rn row, dd !! rn = Some row ∧ is_Some (row !! cn))
                       → cn ∈ colNames').
  { intros cn Hcn. by rewrite Hpc, elem_of_elements, elem_of_column_set. }
  assert (Hsum : ∀ r rn, rowNames' !! r = Some rn →
            ∃ row, dense dd rowNames' colNames' !! r = Some row ∧
                   (Qsum row == inject_Z (outcome_total dd rn))%Q).
  { intros r rn Hr. eexists. split; [by apply dense_rows|].
    by rewrite Qsum_inject_Z, Zsum_cells. }
  split; [done|]. split.
  - intros r row Hrow.
    destruct (lookup_lt_is_Some_2 rowNames' r) as [rn Hrn].
    { apply lookup_lt_Some in Hrow. unfold dense in Hrow.
      by rewrite length_fmap in Hrow. }
    destruct (Hsum r rn Hrn) as (row' & Hrow' & Hq).
    assert (row' = row) as -> by congruence.
    assert (is_Some (dd !! rn)) as [drow Hdrow].
    { apply elem_of_keys. rewrite <- Hpr. by eapply list_elem_of_lookup_2. }
    exists rn, drow. split; [done|]. split; [done|].
    rewrite Hq. unfold outcome_total. by rewrite Hdrow.
  - rewrite dense_sum by done. by rewrite Hpr, Zsum_outcomes.
Qed.





(** ** Accumulators of a trial *)

Lemma add_count_populated name result dd :
  rows_populated dd → rows_populated (Trial.add_count name result dd).
Proof.
  intros Hdd rn row. rewrite add_count_insert.
  destruct (decide (rn = result)) as [->|Hne].
  - rewrite lookup_insert_eq. intros [= <-].
    split; [apply insert_non_empty|]. intros cn c.
    destruct (decide (cn = name)) as [->|Hc].
    + rewrite lookup_insert_eq. intros [= <-]. unfold cell_count.
      destruct (dd !! result) as [row|] eqn:Hrow; cbn; [|lia].
      destruct (row !! name) as [c|] eqn:Hc; cbn; [|lia].
      destruct (Hdd _ _ Hrow) as [_ Hpos]. specialize (Hpos _ _ Hc). lia.
    + rewrite lookup_insert_ne by done.
      destruct (dd !! result) as [row|] eqn:Hrow; cbn.
      * by apply (Hdd _ _ Hrow).
      * by rewrite lookup_empty.
  - rewrite lookup_insert_ne by done. apply Hdd.
Qed.

Lemma reachable_populated dd : reachable dd → rows_populated dd.
Proof.
  induction 1 as [|name result dd _ IH].
  - intros rn row. by rewrite lookup_empty.
  - by apply add_count_populated.
Qed.

Lemma reachable_record_all l : reachable (record_all l ∅).
Proof.
  induction l as [|p l IH] using rev_ind; [constructor|].
  rewrite record_all_snoc. by constructor.
Qed.

(** C10: in an accumulator built by recording draws, every outcome that
    is present has a row that is not empty and whose counts are all at
    least 1; so every row of the table [dictsToTbl] returns for it has a
    sum above zero, and [norm] of that table divides by no zero: all its
    cells are numbers. *)
Theorem reachable_rows_positive (dd : accum) :
  reachable dd →
  (∀ rn row, dd !! rn = Some row →
     row ≠ ∅ ∧ ∀ cn c, row !! cn = Some c → 1 ≤ c) ∧
  (∀ ret rowNames colNames,
     dictsToTbl dd = Ok (ret, rowNames, colNames) →
     ∀ r row, ret !! r = Some row →
       (0 < Qsum row)%Q ∧
       norm ret !! r = Some ((λ x, Finite (x / Qsum row)) <$> row)).
Proof.
  intros Hreach. pose proof (reachable_populated dd Hreach) as Hpop.
  split; [exact Hpop|]. intros ret rowNames colNames E r row Hrow.
  destruct (dictsToTbl_sums _ _ _ _ E) as (_ & Hrows & _).
  destruct (Hrows r row Hrow) as (rn & drow & _ & Hdrow & Hq).
  destruct (Hpop rn drow Hdrow) as [Hne Hpos].
  pose proof (row_total_pos drow Hne Hpos) as Htot.
  assert (Hsum : (0 < Qsum row)%Q).
  { rewrite Hq. change 0%Q with (inject_Z 0). rewrite <- Zlt_Qlt. lia. }
  split; [done|]. rewrite (norm_lookup ret r row Hrow). f_equal.
  apply list_fmap_ext. intros _ x _. apply np_divide_nonzero.
  intros Hz. rewrite Hz in Hsum. by apply Qlt_irrefl in Hsum.
Qed.

Lemma reachable_rows_positive_witness :
  (0 < Qsum [3; 2; 1; 1; 0])%Q ∧
  norm dice_table.1.1 !! 0%nat
    = Some ((λ x, Finite (x / Qsum [3; 2; 1; 1; 0])) <$> [3; 2; 1; 1; 0])%Q.
Proof.
  destruct (reachable_rows_positive
              (record_all
                 (draws_of_run UniformSelectionTrial.chooseSource 30 dice_world)
                 ∅)) as [_ Htable]; [apply reachable_record_all|].
  apply (Htable dice_table.1.1 dice_table.1.2 dice_table.2);
    [by vm_compute | reflexivity].
Defined.

(** * Further properties of the code *)

(** ** Die: bad side counts and reachable faces *)

(** X1: with fewer than one side, [Die.draw] raises [ValueError] (the
    empty range of [randint]) and takes nothing from the generator. *)
Theorem Die_draw_invalid (N : Z) (nm : option atom) (g : rng) :
  N < 1 → draw (Die.__init__ N nm) g = (Raise ValueError, g).
Proof.
  intros HN. change (draw (Die.__init__ N nm)) with (Die.draw (Die.__init__ N nm)).
  unfold Die.draw. by erewrite M_bind_raise by (apply randint_empty; cbn; lia).
Qed.

Lemma Die_draw_invalid_witness :
  draw (Die.__init__ 0 None) g0 = (Raise ValueError, g0).
Proof. apply (Die_draw_invalid 0 None g0). lia. Defined.

(** X2: every face of a die can come up: for [1 <= z <= N] there is a
    state of the generator on which [Die(N).draw()] is [z]. *)
Theorem Die_faces_reachable (N : Z) (nm : option atom) (z : Z) :
  1 ≤ z ≤ N → ∃ g, fst (draw (Die.__init__ N nm) g) = Ok (AInt z).
Proof.
  intros Hz. exists (mk_rng (λ _, z - 1) 0).
  rewrite Die_draw_run by lia. cbn [fst tape pos].
  rewrite Z.mod_small by lia. do 2 f_equal. lia.
Qed.

Lemma Die_faces_reachable_witness :
  ∃ g, fst (draw (Die.__init__ 6 None) g) = Ok (AInt 6).
Proof. apply (Die_faces_reachable 6 None 6). lia. Defined.

(** ** Coin: names *)

Lemma Coin_name_zero bias :
  number_truthy bias = false →
  name (Coin.__init__ bias) = AStr "FairCoin".
Proof. intros Hb. cbn. by rewrite Hb. Qed.

Lemma Coin_name_nonzero bias :
  number_truthy bias = true →
  name (Coin.__init__ bias) = AStr ("Coin:" +:+ number_str bias).
Proof. intros Hb. cbn. by rewrite Hb. Qed.

Lemma number_truthy_false bias :
  number_truthy bias = false ↔ (number_value bias == 0)%Q.
Proof.
  unfold number_truthy, Qeq. cbn [Qnum Qden].
  rewrite Bool.negb_false_iff, Z.eqb_eq. lia.
Qed.

(** X3: a coin is called [FairCoin] exactly when its bias is zero, as an
    [int] or as a [float]; and two coins with [int] biases have the same
    name only when they have the same bias. *)
Theorem Coin_names :
  (∀ bias, name (Coin.__init__ bias) = AStr "FairCoin"
           ↔ (number_value bias == 0)%Q) ∧
  (∀ a b : Z, name (Coin.__init__ (NInt a)) = name (Coin.__init__ (NInt b))
              ↔ a = b).
Proof.
  split.
  - intros bias. rewrite <- number_truthy_false.
    destruct (number_truthy bias) eqn:Hb.
    + rewrite Coin_name_nonzero by done. split; [|done]. cbn. discriminate.
    + by rewrite Coin_name_zero.
  - intros a b. split; [|by intros ->].
    destruct (number_truthy (NInt a)) eqn:Ha,
             (number_truthy (NInt b)) eqn:Hb.
    + rewrite !Coin_name_nonzero by done. cbn. intros [= Hab].
      change (pretty a = pretty b) in Hab. exact (inj pretty _ _ Hab).
    + rewrite Coin_name_nonzero, Coin_name_zero by done. cbn. discriminate.
    + rewrite Coin_name_zero, Coin_name_nonzero by done. cbn. discriminate.
    + intros _. apply number_truthy_false in Ha, Hb.
      unfold Qeq in Ha, Hb. cbn in Ha, Hb. lia.
Qed.

(** ** Counter: edge counts, misses and exceptions *)

Section Counter_edges.
Context {Src : Type} `{Drawable Src}.

Lemma Counter_loop_never (self : Counter.t Src) n total g :
  never_draws (Counter.source self) (Counter.value self) →
  ∃ g', Counter.loop self n total g = (Ok total, g').
Proof.
  intros Hv. revert g. induction n as [|n IH]; intros g; [by exists g|].
  destruct (Hv g) as (r & g1 & E & Hr). cbn [Counter.loop].
  unfold draw_of. erewrite M_bind_ok by exact E.
  rewrite decide_False by done. apply IH.
Qed.
End Counter_edges.

(** X4: when the draws of the wrapped source return but are never the
    target value, [Counter.draw] returns 0, whatever the count asked
    for. *)
Theorem Counter_draw_never {Src} `{Drawable Src}
    (src : Src) (v : atom) (k : Z) (g : rng) :
  never_draws src v → fst (draw (Counter.__init__ src v k) g) = Ok (AInt 0).
Proof.
  intros Hv. rewrite Counter_draw_unfold.
  destruct (Counter_loop_never (Counter.__init__ src v k) (Z.to_nat k) 0 g Hv)
    as [g' E].
  by erewrite M_bind_ok by exact E.
Qed.

Lemma Coin_never_lowercase bias :
  never_draws (Coin.__init__ bias) (AStr "heads").
Proof.
  intros g. eexists _, _. split; [apply Coin_draw_run|].
  by destruct (Coin.is_heads _ _).
Qed.

Lemma Counter_draw_never_witness :
  fst (draw (Counter.__init__ (Coin.__init__ (NInt 1)) (AStr "heads") 10) g0)
    = Ok (AInt 0).
Proof.
  apply (Counter_draw_never (Coin.__init__ (NInt 1)) (AStr "heads") 10 g0).
  apply Coin_never_lowercase.
Defined.

(** X5: a count that is zero or negative makes [Counter.draw] return 0
    without a draw from the wrapped source: the generator is as it was. *)
Theorem Counter_draw_nonpositive {Src} `{Drawable Src}
    (src : Src) (v : atom) (k : Z) (g : rng) :
  k ≤ 0 → draw (Counter.__init__ src v k) g = (Ok (AInt 0), g).
Proof.
  intros Hk. rewrite Counter_draw_unfold. cbn [Counter.nDraws Counter.__init__].
  by replace (Z.to_nat k) with O by lia.
Qed.

Lemma Counter_draw_nonpositive_witness :
  draw (Counter.__init__ (Die.__init__ 0 None) (AInt 1) (-3)) g0
    = (Ok (AInt 0), g0).
Proof.
  apply (Counter_draw_nonpositive (Die.__init__ 0 None) (AInt 1) (-3) g0). lia.
Defined.

(** X6: when the wrapped source raises on its first draw and at least
    one draw is asked for, [Counter.draw] raises the same exception and
    leaves the generator as the source left it. *)
Theorem Counter_draw_propagates {Src} `{Drawable Src}
    (src : Src) (v : atom) (k : Z) (g g' : rng) (e : exn) :
  1 ≤ k → draw src g = (Raise e, g') →
  draw (Counter.__init__ src v k) g = (Raise e, g').
Proof.
  intros Hk E. rewrite Counter_draw_unfold. cbn [Counter.nDraws Counter.__init__].
  destruct (Z.to_nat k) as [|n] eqn:Hn; [lia|].
  apply M_bind_raise. cbn [Counter.loop]. unfold draw_of.
  by apply M_bind_raise.
Qed.

Lemma Counter_draw_propagates_witness :
  draw (Counter.__init__ (Die.__init__ 0 None) (AInt 1) 10) g0
    = (Raise ValueError, g0).
Proof.
  apply (Counter_draw_propagates (Die.__init__ 0 None) (AInt 1) 10 g0 g0);
    [lia | reflexivity].
Defined.

(** ** The accumulator under [_add] *)

Lemma add_count_lookup name result (dd : accum) rn :
  Trial.add_count name result dd !! rn =
    if decide (rn = result)
    then Some (<[name := cell_count dd result name + 1]>
                 (default ∅ (dd !! result)))
    else dd !! rn.
Proof.
  rewrite add_count_insert. destruct (decide (rn = result)) as [->|Hne].
  - by rewrite lookup_insert_eq.
  - by rewrite lookup_insert_ne.
Qed.

(** X7: [_add(name, result)] returns, touches neither the generator nor
    the other attributes of the trial, makes [result] a row of the
    accumulator and keeps the rows there were, adds one to the cell of
    [result] and [name], and leaves the count of every other cell as it
    was. *)
Theorem add_updates_one_cell {X} (name result : atom) (w : Trial.world X) :
  let acc := Trial.results (Trial.self w) in
  let w' := snd (Trial._add name result w) in
  let acc' := Trial.results (Trial.self w') in
  fst (Trial._add name result w) = Ok tt ∧
  Trial.random w' = Trial.random w ∧
  Trial.attrs (Trial.self w') = Trial.attrs (Trial.self w) ∧
  (∀ rn, is_Some (acc' !! rn) ↔ rn = result ∨ is_Some (acc !! rn)) ∧
  (∀ rn cn, cell_count acc' rn cn =
     cell_count acc rn cn + (if decide (rn = result ∧ cn = name) then 1 else 0)).
Proof.
  cbv zeta. cbn [Trial._add fst snd Trial.random Trial.self Trial.results
                 Trial.attrs].
  split; [done|]. split; [done|]. split; [done|]. split.
  - intros rn. rewrite add_count_lookup.
    destruct (decide (rn = result)) as [->|Hne].
    + split; [by left | by eexists].
    + split; [by right | by intros [?|?]].
  - intros rn cn. apply add_count_cell.
Qed.

Lemma add_count_comm n1 r1 n2 r2 (dd : accum) :
  Trial.add_count n1 r1 (Trial.add_count n2 r2 dd)
    = Trial.add_count n2 r2 (Trial.add_count n1 r1 dd).
Proof.
  apply map_eq. intros rn. rewrite !add_count_lookup, !add_count_cell.
  repeat case_decide; destruct_and?; simplify_eq; cbn [default];
    rewrite ?Z.add_0_r; try done; try (exfalso; by auto).
  unfold id. f_equal. apply insert_insert_ne. intros ->. tauto.
Qed.

(** X8: the accumulator does not depend on the order of the draws:
    recording the same pairs in another order gives the same mapping. *)
Theorem record_all_perm (l1 l2 : list (atom * atom)) (dd : accum) :
  l1 ≡ₚ l2 → record_all l1 dd = record_all l2 dd.
Proof.
  intros Hp. revert dd.
  induction Hp as [|p l1 l2 _ IH|p q l|l1 l2 l3 _ IH1 _ IH2]; intros dd.
  - done.
  - rewrite !record_all_cons. apply IH.
  - rewrite !record_all_cons. by rewrite add_count_comm.
  - by rewrite IH1.
Qed.

Lemma record_all_perm_witness :
  record_all [(AInt 4, AInt 3); (AInt 6, AInt 6); (AInt 4, AInt 1)] ∅
    = record_all [(AInt 6, AInt 6); (AInt 4, AInt 1); (AInt 4, AInt 3)] ∅.
Proof.
  apply (record_all_perm
           [(AInt 4, AInt 3); (AInt 6, AInt 6); (AInt 4, AInt 1)]
           [(AInt 6, AInt 6); (AInt 4, AInt 1); (AInt 4, AInt 3)] ∅).
  apply (Permutation_cons_append [(AInt 6, AInt 6); (AInt 4, AInt 1)]).
Defined.

(** X9: the accumulators that [_add] builds from the empty one are the
    tallies of lists of draws, and the cell of an outcome and a name in
    such a tally is the number of draws of that name with that outcome. *)
Theorem reachable_tally (dd : accum) :
  reachable dd ↔
  ∃ l : list (atom * atom),
    dd = record_all l ∅ ∧
    ∀ rn cn, cell_count dd rn cn
             = Z.of_nat (length (filter (λ p, p = (cn, rn)) l)).
Proof.
  split.
  - induction 1 as [|name result dd _ (l & -> & _)].
    + exists []. split; [done|]. intros rn cn.
      by rewrite cell_count_absent by apply lookup_empty.
    + assert (E : Trial.add_count name result (record_all l ∅)
                  = record_all (l ++ [(name, result)]) ∅)
        by by rewrite record_all_snoc.
      exists (l ++ [(name, result)]). rewrite E.
      split; [done|]. intros rn cn.
      rewrite record_all_cell, cell_count_absent by apply lookup_empty. lia.
  - intros (l & -> & _). apply reachable_record_all.
Qed.

(** ** The runner: selection, batches and failures *)

Lemma for_range_add {St} (a b : nat) (body : M St unit) (s : St) :
  for_range (a + b) body s = (for_range a body ;; for_range b body) s.
Proof.
  revert s. induction a as [|a IH]; intros s; [done|].
  change (for_range (S a + b) body s) with
    ((body ;; for_range (a + b) body) s).
  change ((for_range (S a) body ;; for_range b body) s) with
    (((body ;; for_range a body) ;; for_range b body) s).
  unfold mbind, M_bind. destruct (body s) as [[[]|e] s1]; [|done]. apply IH.
Qed.

(** X10: [run(a)] followed by [run(b)] is [run(a + b)], for counts that
    are not negative: same result, same accumulator, same generator;
    and if the first batch raises, so does the single run, at the same
    point. *)
Theorem run_batches {Src X} `{Drawable Src}
    (chooseSource : M (Trial.world X) Src) (a b : Z) (w : Trial.world X) :
  0 ≤ a → 0 ≤ b →
  (Trial.run chooseSource a ;; Trial.run chooseSource b) w
    = Trial.run chooseSource (a + b) w.
Proof.
  intros Ha Hb. unfold Trial.run.
  by rewrite Z2Nat.inj_add, for_range_add by done.
Qed.

Lemma run_batches_witness :
  (UniformSelectionTrial.run 10 ;; UniformSelectionTrial.run 20) dice_world
    = UniformSelectionTrial.run 30 dice_world.
Proof.
  apply (run_batches UniformSelectionTrial.chooseSource 10 20 dice_world); lia.
Defined.

(** X11: [run] with a count that is zero or negative does nothing and
    returns: no source is chosen, whatever the selection policy, and
    accumulator and generator are as they were. *)
Theorem run_nonpositive {Src X} `{Drawable Src}
    (chooseSource : M (Trial.world X) Src) (nDraws : Z) (w : Trial.world X) :
  nDraws ≤ 0 → Trial.run chooseSource nDraws w = (Ok tt, w).
Proof.
  intros Hn. unfold Trial.run. by replace (Z.to_nat nDraws) with O by lia.
Qed.

Lemma run_nonpositive_witness :
  UniformSelectionTrial.run (-5) dice_world = (Ok tt, dice_world).
Proof.
  apply (run_nonpositive UniformSelectionTrial.chooseSource (-5) dice_world). lia.
Defined.

Section UniformSelectionTrial_edges.
Context {Src : Type} `{Drawable Src}.
Implicit Types (w : Trial.world (list Src)) (n : nat).

Lemma chooseSource_empty w :
  UniformSelectionTrial.sources (Trial.self w) = [] →
  UniformSelectionTrial.chooseSource w = (Raise IndexError, w).
Proof.
  intros He. destruct w as [g self].
  unfold UniformSelectionTrial.chooseSource, Trial.lift_random.
  cbn [Trial.self Trial.random] in *. by rewrite He.
Qed.

Lemma random_choice_any (seq : list Src) (i : nat) (src : Src) :
  seq !! i = Some src →
  ∃ g g', random_choice seq g = (Ok src, g').
Proof.
  intros Hi. exists (mk_rng (λ _, Z.of_nat i) 0).
  destruct seq as [|x seq']; [done|]. set (seq := x :: seq') in *.
  change (random_choice seq ?g) with
    ((j ← randbelow (Z.of_nat (length seq));
      mret (default x (seq !! Z.to_nat j))) g).
  rewrite (M_bind_ok _ _ _ _ _ (randbelow_run _ _)). cbn [tape pos].
  apply lookup_lt_Some in Hi as Hlt.
  rewrite Z.mod_small, Nat2Z.id by lia. eexists. cbn.
  by rewrite Hi.
Qed.

(** The pairs a uniform-selection run records are names of sources of
    the collection with an outcome that this source can draw. *)
Lemma run_log_entries n w :
  Forall (λ p, ∃ src g g',
            src ∈ UniformSelectionTrial.sources (Trial.self w) ∧
            p.1 = name src ∧ draw src g = (Ok p.2, g'))
         (run_log UniformSelectionTrial.chooseSource n w).
Proof.
  revert w. induction n as [|n IH]; intros w; [constructor|].
  cbn [run_log].
  destruct (decide (UniformSelectionTrial.sources (Trial.self w) = []))
    as [He|Hne]; [by rewrite chooseSource_empty|].
  destruct (chooseSource_run w Hne) as (src & Hin & ->).
  unfold Trial.lift_random. cbn [Trial.random Trial.self].
  destruct (draw src _) as [[r|e] g'] eqn:E; [|constructor].
  constructor; [by eexists src, _, g'|].
  exact (IH (snd (Trial._add (name src) r
                    (Trial.mk_world g' (Trial.self w))))).
Qed.

(** A cell stays at zero when no source of its name can draw its
    outcome. *)
Lemma impossible_cell (sources : list Src) nDraws g nm r :
  (∀ src g1 g2, src ∈ sources → name src = nm → draw src g1 ≠ (Ok r, g2)) →
  cell_count
    (Trial.results (Trial.self (snd
       (UniformSelectionTrial.run nDraws
          (Trial.mk_world g (UniformSelectionTrial.__init__ sources))))))
    r nm = 0.
Proof.
  intros Hno. unfold UniformSelectionTrial.run, Trial.run.
  rewrite (run_log_results _ chooseSource_frame).
  rewrite record_all_cell, cell_count_absent by apply lookup_empty.
  pose proof (run_log_entries (Z.to_nat nDraws)
    (Trial.mk_world g (UniformSelectionTrial.__init__ sources))) as Hlog.
  induction Hlog as [|p l (src & g1 & g2 & Hin & Hname & Hdraw) _ IH]; [done|].
  rewrite filter_cons. destruct (decide (p = (nm, r))) as [->|Hp]; [|exact IH].
  exfalso. by apply (Hno src g1 g2).
Qed.
End UniformSelectionTrial_edges.

(** X12: with an empty collection of sources [chooseSource] raises
    [IndexError], and so does every run of at least one iteration, with
    accumulator and generator as they were. *)
Theorem run_empty_sources {Src} `{Drawable Src}
    (nDraws : Z) (w : Trial.world (list Src)) :
  UniformSelectionTrial.sources (Trial.self w) = [] →
  1 ≤ nDraws →
  UniformSelectionTrial.chooseSource w = (Raise IndexError, w) ∧
  UniformSelectionTrial.run nDraws w = (Raise IndexError, w).
Proof.
  intros He Hn. split; [by apply chooseSource_empty|].
  unfold UniformSelectionTrial.run, Trial.run.
  destruct (Z.to_nat nDraws) as [|n] eqn:E; [lia|].
  rewrite for_range_succ, step_run. by rewrite chooseSource_empty.
Qed.

Lemma run_empty_sources_witness :
  UniformSelectionTrial.run 3
    (Trial.mk_world g0 (UniformSelectionTrial.__init__ ([] : list Die.t)))
  = (Raise IndexError,
     Trial.mk_world g0 (UniformSelectionTrial.__init__ ([] : list Die.t))).
Proof.
  apply (run_empty_sources 3
    (Trial.mk_world g0 (UniformSelectionTrial.__init__ ([] : list Die.t))));
    [reflexivity | lia].
Defined.

(** X13: from a collection that is not empty [chooseSource] returns one
    of its sources and takes one value from the generator, the trial
    object being as it was; and every source of the collection is
    chosen on some state of the generator. *)
Theorem chooseSource_selects {Src} `{Drawable Src} (self : Trial.t (list Src)) :
  UniformSelectionTrial.sources self ≠ [] →
  (∀ g, ∃ src,
     src ∈ UniformSelectionTrial.sources self ∧
     UniformSelectionTrial.chooseSource (Trial.mk_world g self)
       = (Ok src, Trial.mk_world (mk_rng (tape g) (S (pos g))) self)) ∧
  (∀ src, src ∈ UniformSelectionTrial.sources self →
     ∃ g, fst (UniformSelectionTrial.chooseSource (Trial.mk_world g self))
          = Ok src).
Proof.
  intros Hne. split.
  - intros g. apply (chooseSource_run (Trial.mk_world g self) Hne).
  - intros src [i Hi]%list_elem_of_lookup_1.
    destruct (random_choice_any _ i src Hi) as (g & g' & E). exists g.
    unfold UniformSelectionTrial.chooseSource, Trial.lift_random.
    cbn [Trial.self Trial.random]. by rewrite E.
Qed.

Lemma chooseSource_selects_witness :
  ∃ g, fst (UniformSelectionTrial.chooseSource
              (Trial.mk_world g (UniformSelectionTrial.__init__ dice)))
       = Ok (Die.__init__ 20 None).
Proof.
  apply (chooseSource_selects (UniformSelectionTrial.__init__ dice));
    [done | by apply (list_elem_of_lookup_2 dice 4)].
Defined.

(** ** The two experiments of the notebook *)

Lemma Die_draw_ok N nm g r g' :
  draw (Die.__init__ N nm) g = (Ok r, g') → ∃ z, r = AInt z ∧ 1 ≤ z ≤ N.
Proof.
  destruct (decide (1 ≤ N)) as [HN|HN].
  - rewrite Die_draw_run by done. intros [= <- _]. eexists. split; [done|].
    pose proof (Z.mod_pos_bound (tape g (pos g)) N). lia.
  - change (draw (Die.__init__ N nm)) with (Die.draw (Die.__init__ N nm)).
    unfold Die.draw.
    by erewrite M_bind_raise by (apply randint_empty; cbn; lia).
Qed.

(** X14: in a uniform-selection run over dice named by their side counts,
    from a fresh trial, the cell of an outcome [z] and a die with fewer
    than [z] sides is never counted: a 4-sided die is never seen with a
    6. *)
Theorem dice_impossible_cells (sides : list Z) (nDraws : Z) (g : rng) (z N : Z) :
  N < z →
  cell_count
    (Trial.results (Trial.self (snd
       (UniformSelectionTrial.run nDraws
          (Trial.mk_world g
             (UniformSelectionTrial.__init__
                ((λ n, Die.__init__ n None) <$> sides)))))))
    (AInt z) (AInt N) = 0.
Proof.
  intros Hz. apply impossible_cell.
  intros src g1 g2 [n [-> _]]%list_elem_of_fmap Hname Hdraw.
  cbn in Hname. injection Hname as ->.
  apply Die_draw_ok in Hdraw as (z' & [= <-] & Hz'). lia.
Qed.

Lemma dice_impossible_cells_witness :
  cell_count
    (Trial.results (Trial.self (snd (UniformSelectionTrial.run 30 dice_world))))
    (AInt 6) (AInt 4) = 0.
Proof. apply (dice_impossible_cells [4; 6; 8; 12; 20] 30 g0 6 4). lia. Defined.

Lemma jar_double_headed n k src :
  src ∈ jar n k → name src = AStr "Coin:1" →
  src = Counter.__init__ (Coin.__init__ (NInt 1)) (AStr "Heads") k.
Proof.
  unfold jar. rewrite fmap_cons.
  intros [->|Hin]%elem_of_cons Hname; [done|].
  apply list_elem_of_fmap in Hin as (coin & -> & Hcoin).
  apply elem_of_replicate in Hcoin as [-> _]. done.
Qed.

(** X15: in the experiment with the jar of coins (one double-headed coin,
    [n] fair ones, each counted over [k >= 0] flips), a run from a fresh
    trial never counts the double-headed coin's name under an outcome
    other than [k]: the rows of fewer than [k] heads belong to
    [FairCoin] alone. *)
Theorem jar_double_headed_row (n : nat) (k nDraws : Z) (g : rng) (t : Z) :
  0 ≤ k → t ≠ k →
  cell_count
    (Trial.results (Trial.self (snd
       (UniformSelectionTrial.run nDraws
          (Trial.mk_world g (UniformSelectionTrial.__init__ (jar n k)))))))
    (AInt t) (AStr "Coin:1") = 0.
Proof.
  intros Hk Ht. apply impossible_cell.
  intros src g1 g2 Hin Hname Hdraw.
  rewrite (jar_double_headed n k src Hin Hname) in Hdraw.
  rewrite Counter_draw_unfold in Hdraw.
  destruct (Counter_loop_always
              (Counter.__init__ (Coin.__init__ (NInt 1)) (AStr "Heads") k)
              (Z.to_nat k) 0 g1 Coin_one_always_heads) as [g' E].
  erewrite M_bind_ok in Hdraw by exact E.
  injection Hdraw as Hd _. lia.
Qed.

Lemma jar_double_headed_row_witness :
  cell_count
    (Trial.results (Trial.self (snd
       (UniformSelectionTrial.run 50
          (Trial.mk_world g0 (UniformSelectionTrial.__init__ (jar 999 10)))))))
    (AInt 9) (AStr "Coin:1") = 0.
Proof. apply (jar_double_headed_row 999 10 50 g0 9); lia. Defined.

(** ** The table with exact cells: frequencies *)

Lemma Qsum_nonneg l : Forall (λ x, 0 <= x)%Q l → (0 <= Qsum l)%Q.
Proof.
  induction 1 as [|x l Hx _ IH]; [done|].
  rewrite Qsum_cons. rewrite <- (Qplus_0_r 0). by apply Qplus_le_compat.
Qed.

Lemma Qsum_elem_le l x :
  Forall (λ x, 0 <= x)%Q l → x ∈ l → (x <= Qsum l)%Q.
Proof.
  induction 1 as [|y l Hy Hl IH]; [by intros ?%elem_of_nil|].
  rewrite Qsum_cons. intros [->|Hx]%elem_of_cons.
  - rewrite <- (Qplus_0_r y) at 1. apply Qplus_le_compat; [apply Qle_refl|].
    by apply Qsum_nonneg.
  - rewrite <- (Qplus_0_l x). apply Qplus_le_compat; [done | by apply IH].
Qed.

Lemma frequency_range x s : (0 <= x)%Q → (x <= s)%Q → (0 < s)%Q →
  (0 <= x / s)%Q ∧ (x / s <= 1)%Q.
Proof.
  intros Hx Hxs Hs. split.
  - apply Qle_shift_div_l; [done|]. by rewrite Qmult_0_l.
  - apply Qle_shift_div_r; [done|]. by rewrite Qmult_1_l.
Qed.

(** X17: on a row of non-negative cells whose sum is above zero, as the
    rows of a count table are, [norm] gives numbers between 0 and 1. *)
Theorem norm_frequencies (ar : matrix) (r : nat) (row : list Q) :
  ar !! r = Some row →
  Forall (λ x, 0 <= x)%Q row →
  (0 < Qsum row)%Q →
  ∃ qs, norm ar !! r = Some (Finite <$> qs) ∧
        length qs = length row ∧
        Forall (λ q, 0 <= q ∧ q <= 1)%Q qs.
Proof.
  intros Hr Hrow Hs. exists ((λ x, x / Qsum row)%Q <$> row).
  rewrite (norm_lookup ar r row Hr). split; [|split].
  - f_equal. rewrite <- list_fmap_compose. apply list_fmap_ext.
    intros _ x _. apply np_divide_nonzero. intros Hz.
    rewrite Hz in Hs. by apply Qlt_irrefl in Hs.
  - by rewrite length_fmap.
  - apply Forall_fmap, Forall_forall. intros x Hx. cbn.
    apply frequency_range; [|by apply Qsum_elem_le|done].
    rewrite Forall_forall in Hrow. by apply Hrow.
Qed.

Lemma norm_frequencies_witness :
  ∃ qs, norm [[5; 0; 0]; [0; 2; 1]]%Q !! 1%nat = Some (Finite <$> qs) ∧
        length qs = 3%nat ∧
        Forall (λ q, 0 <= q ∧ q <= 1)%Q qs.
Proof.
  apply (norm_frequencies [[5; 0; 0]; [0; 2; 1]]%Q 1 [0; 2; 1]%Q);
    [reflexivity | by repeat constructor | reflexivity].
Defined.

Lemma Qsum_affine (a b : Q) (l : list Q) :
  (Qsum ((λ q, q * a - b) <$> l)
     == Qsum l * a - b * inject_Z (Z.of_nat (length l)))%Q.
Proof.
  induction l as [|x l IH].
  - change (0 == 0 * a - b * 0)%Q. ring.
  - rewrite fmap_cons, !Qsum_cons, IH. cbn [length].
    rewrite Nat2Z.inj_succ. unfold Z.succ. rewrite inject_Z_plus. ring.
Qed.

Lemma dictsToTbl_dense dd ret rowNames colNames :
  dictsToTbl dd = Ok (ret, rowNames, colNames) →
  ret = dense dd rowNames colNames.
Proof.
  intros E. destruct (dictsToTbl_ok_inv _ _ _ _ E) as [Hrows Hcols].
  destruct (dictsToTbl_ok dd Hrows Hcols) as (rs & cs & E' & _).
  rewrite E in E'. by injection E' as -> -> ->.
Qed.

Lemma cell_count_nonneg dd rn cn : rows_populated dd → 0 ≤ cell_count dd rn cn.
Proof.
  intros Hpop. unfold cell_count.
  destruct (dd !! rn) as [row|] eqn:Hrow; cbn; [|done].
  destruct (row !! cn) as [c|] eqn:Hc; cbn; [|done].
  destruct (Hpop rn row Hrow) as [_ Hpos]. specialize (Hpos cn c Hc). lia.
Qed.

Lemma list_index_ok x l i : list_index x l = Ok i → l !! i = Some x.
Proof.
  revert i. induction l as [|y l IH]; intros i; [done|]. cbn [list_index].
  destruct (decide (y = x)) as [->|Hne]; [by intros [= <-]|].
  destruct (list_index x l) as [j|e]; [|done]. cbn. intros [= <-].
  by apply IH.
Qed.

Lemma list_index_raise x l e : list_index x l = Raise e → x ∉ l.
Proof.
  induction l as [|y l IH]; [intros _; apply not_elem_of_nil|].
  cbn [list_index]. destruct (decide (y = x)) as [->|Hne]; [done|].
  destruct (list_index x l) as [j|e'] eqn:E; [done|]. intros [= ->].
  apply not_elem_of_cons. split; [done | by apply IH].
Qed.

(** X20: on one state of the generator a coin of larger bias shows heads
    whenever a coin of smaller bias does. *)
Theorem Coin_bias_monotone (b1 b2 : number) (g : rng) :
  (number_value b1 <= number_value b2)%Q →
  fst (draw (Coin.__init__ b1) g) = Ok (AStr "Heads") →
  fst (draw (Coin.__init__ b2) g) = Ok (AStr "Heads").
Proof.
  intros Hb. rewrite !Coin_draw_run. cbn [fst].
  destruct (Coin.is_heads (Coin.__init__ b1) _) eqn:E1; [|done]. intros _.
  apply is_heads_iff in E1. cbn [Coin.bias Coin.__init__] in E1.
  assert (E2 : Coin.is_heads (Coin.__init__ b2) (sample_at (tape g (pos g)))
               = true).
  { apply is_heads_iff. eapply Qlt_le_trans; [exact E1 | exact Hb]. }
  by rewrite E2.
Qed.

Lemma Coin_bias_monotone_witness :
  fst (draw (Coin.__init__ (NInt 1)) g0) = Ok (AStr "Heads").
Proof.
  apply (Coin_bias_monotone (NFloat (3 # 4) "0.75") (NInt 1) g0);
    [by vm_compute | by vm_compute].
Defined.

(** * The table formatter and the summary in float64 arithmetic *)

(** ** Rounding to float64 *)

Section rounding.
Implicit Types (n d k u e M N D : Z).

Lemma scale_pos n d k :
  0 < n → 0 < d → 0 < (Float64.scale n d k).1 ∧ 0 < (Float64.scale n d k).2.
Proof.
  intros Hn Hd. unfold Float64.scale.
  destruct (Z.leb_spec 0 k); cbn [fst snd].
  - assert (0 < 2 ^ k) by (apply Z.pow_pos_nonneg; lia). nia.
  - assert (0 < 2 ^ (- k)) by (apply Z.pow_pos_nonneg; lia). nia.
Qed.

Lemma floor_log2_le n d :
  0 < n → 0 < d → Float64.pow2_le (Float64.floor_log2 n d) n d.
Proof.
  intros Hn Hd. unfold Float64.floor_log2, Float64.pow2_le.
  set (e0 := Z.log2 n - Z.log2 d).
  destruct (Float64.scale n d e0) as [N D] eqn:E.
  destruct (Z.leb_spec D N) as [Hle|Hlt]; [by rewrite E|].
  destruct (Z.log2_spec n Hn) as [Hn1 _].
  destruct (Z.log2_spec d Hd) as [_ Hd2].
  pose proof (Z.log2_nonneg n). pose proof (Z.log2_nonneg d).
  unfold Float64.scale. destruct (Z.leb_spec 0 (e0 - 1)) as [He|He]; cbn [fst snd].
  - assert (Hp : 2 ^ Z.log2 n = 2 ^ (e0 - 1) * 2 ^ Z.succ (Z.log2 d)).
    { rewrite <- Z.pow_add_r by lia. f_equal. unfold e0. lia. }
    assert (0 < 2 ^ (e0 - 1)) by (apply Z.pow_pos_nonneg; lia). nia.
  - assert (Hp : 2 ^ Z.succ (Z.log2 d) = 2 ^ (- (e0 - 1)) * 2 ^ Z.log2 n).
    { rewrite <- Z.pow_add_r by lia. f_equal. unfold e0. lia. }
    assert (0 < 2 ^ (- (e0 - 1))) by (apply Z.pow_pos_nonneg; lia). nia.
Qed.

(** From [2^(u+52) <= n / d] to the scaled fraction: it is at least
    [2^52]. *)
Lemma pow2_le_scale n d u :
  0 < n → 0 < d → Float64.pow2_le (u + 52) n d →
  (Float64.scale n d u).2 * 2 ^ 52 ≤ (Float64.scale n d u).1.
Proof.
  intros Hn Hd. unfold Float64.pow2_le, Float64.scale.
  destruct (Z.leb_spec 0 u) as [Hu|Hu]; cbn [fst snd].
  - rewrite (proj2 (Z.leb_le 0 (u + 52))) by lia. cbn [fst snd].
    rewrite Z.pow_add_r by lia. lia.
  - destruct (Z.leb_spec 0 (u + 52)) as [Hu'|Hu']; cbn [fst snd].
    + assert (Hp : 2 ^ 52 = 2 ^ (u + 52) * 2 ^ (- u)).
      { rewrite <- Z.pow_add_r by lia. f_equal. lia. }
      assert (0 < 2 ^ (- u)) by (apply Z.pow_pos_nonneg; lia).
      assert (0 < 2 ^ (u + 52)) by (apply Z.pow_pos_nonneg; lia).
      intros Hle. rewrite Hp. nia.
    + assert (Hp : 2 ^ (- u) = 2 ^ (- (u + 52)) * 2 ^ 52).
      { rewrite <- Z.pow_add_r by lia. f_equal. lia. }
      intros Hle. rewrite Hp. nia.
Qed.

(** What [round_pos] returns: the exponent, and a mantissa within one
    half of the scaled fraction. *)
Lemma round_pos_spec n d M u :
  0 < n → 0 < d → Float64.round_pos n d = (M, u) →
  u = Z.max (Float64.floor_log2 n d) (-1022) - 52 ∧
  0 ≤ M ∧
  Z.abs (2 * (M * (Float64.scale n d u).2 - (Float64.scale n d u).1))
    ≤ (Float64.scale n d u).2.
Proof.
  intros Hn Hd. unfold Float64.round_pos.
  set (u0 := Z.max (Float64.floor_log2 n d) (-1022) - 52).
  destruct (scale_pos n d u0 Hn Hd) as [HN HD].
  destruct (Float64.scale n d u0) as [N D] eqn:E. cbn [fst snd] in *.
  intros [= <- <-]. split; [done|]. rewrite E. cbn [fst snd].
  pose proof (Z.div_mod N D ltac:(lia)) as Hdm.
  pose proof (Z.mod_pos_bound N D HD) as Hr.
  assert (0 ≤ N / D) by (apply Z.div_pos; lia).
  set (m := N / D) in *. set (r := N mod D) in *.
  destruct (Z.ltb_spec (2 * r) D); [split; nia|].
  destruct (Z.ltb_spec D (2 * r)); [split; nia|].
  destruct (Z.even m); split; nia.
Qed.

Lemma ldexp_Qeq M u :
  (Float64.ldexp M u ==
   if 0 <=? u then inject_Z (M * 2 ^ u) else M # Z.to_pos (2 ^ (- u)))%Q.
Proof.
  unfold Float64.ldexp. destruct (0 <=? u); [reflexivity | apply Qred_correct].
Qed.

(** The error of rounding a positive fraction that is at least
    [2^-1022]: at most [2^-53] of it. *)
Lemma round_pos_error n (dp : positive) M u :
  0 < n → Float64.pow2_le (-1022) n (Zpos dp) →
  Float64.round_pos n (Zpos dp) = (M, u) →
  (0 <= Float64.ldexp M u)%Q ∧
  (Qabs (Float64.ldexp M u - (n # dp)) <= (n # dp) * (1 # 2 ^ 53))%Q ∧
  (n < Zpos dp * 2 ^ 1023 → M * 2 ^ u < 2 ^ 1024).
Proof.
  intros Hn Hmin E.
  destruct (round_pos_spec n (Zpos dp) M u Hn ltac:(lia) E) as (Hu & HM & Hhalf).
  assert (Hlow : Float64.pow2_le (u + 52) n (Zpos dp)).
  { rewrite Hu. replace (Z.max (Float64.floor_log2 n (Z.pos dp)) (-1022) - 52 + 52)
      with (Z.max (Float64.floor_log2 n (Z.pos dp)) (-1022)) by lia.
    destruct (Z.max_spec (Float64.floor_log2 n (Z.pos dp)) (-1022))
      as [[_ ->]|[_ ->]]; [done|].
    apply floor_log2_le; lia. }
  apply pow2_le_scale in Hlow; [|lia..]. clear Hu Hmin E.
  rewrite !ldexp_Qeq. unfold Float64.scale in *.
  assert (H53 : Z.pos (2 ^ 53) = 2 * 2 ^ 52) by reflexivity.
  set (E52 := 2 ^ 52) in *. assert (0 < E52) by (unfold E52; lia).
  destruct (Z.leb_spec 0 u) as [Hpos|Hneg]; cbn [fst snd] in *.
  - assert (HP : 0 < 2 ^ u) by (apply Z.pow_pos_nonneg; lia).
    set (P := 2 ^ u) in *. clearbody P E52.
    split; [|split].
    + unfold Qle. cbn. nia.
    + apply Qabs_diff_Qle_condition. unfold Qle, Qminus, Qplus, Qmult, Qopp.
      cbn [Qnum Qden inject_Z]. rewrite ?Pos2Z.inj_mul, H53.
      set (d := Z.pos dp) in *. assert (0 < d) by (unfold d; lia). clearbody d.
      split; nia.
    + intros Hn'. set (d := Z.pos dp) in *. assert (0 < d) by (unfold d; lia).
      clearbody d. change (2 ^ 1024) with (2 * 2 ^ 1023).
      set (B := 2 ^ 1023) in *. clearbody B. nia.
  - assert (HP : 0 < 2 ^ (- u)) by (apply Z.pow_pos_nonneg; lia).
    replace (2 ^ u) with 0 by (symmetry; apply Z.pow_neg_r; lia).
    set (P := 2 ^ (- u)) in *.
    assert (HPp : Z.pos (Z.to_pos P) = P) by (apply Z2Pos.id; lia).
    split; [|split].
    + unfold Qle. cbn. nia.
    + apply Qabs_diff_Qle_condition. unfold Qle, Qminus, Qplus, Qmult, Qopp.
      cbn [Qnum Qden inject_Z]. rewrite ?Pos2Z.inj_mul, ?HPp, H53.
      set (d := Z.pos dp) in *. assert (0 < d) by (unfold d; lia).
      clearbody d P E52. split; nia.
    + intros _. lia.
Qed.
End rounding.

Lemma round_Qeq (q q' : Q) : (q == q')%Q → Float64.round q = Float64.round q'.
Proof. intros E. unfold Float64.round. by rewrite (Qred_complete q q' E). Qed.

Lemma Qred_inject_Z (v : Z) : Qred (inject_Z v) = inject_Z v.
Proof.
  unfold inject_Z, Qred.
  pose proof (Z.ggcd_correct_divisors v 1) as Hd.
  pose proof (Z.ggcd_gcd v 1) as Hg. rewrite Z.gcd_1_r in Hg.
  destruct (Z.ggcd v 1) as [g [a b]]. cbn [fst snd] in *. subst g.
  destruct Hd as [Ha Hb]. f_equal; [lia|].
  assert (Hb1 : b = 1) by lia. by rewrite Hb1.
Qed.

Lemma floor_log2_int (v : Z) : 0 < v → Float64.floor_log2 v 1 = Z.log2 v.
Proof.
  intros Hv. unfold Float64.floor_log2. change (Z.log2 1) with 0.
  rewrite Z.sub_0_r. pose proof (Z.log2_nonneg v). unfold Float64.scale.
  rewrite (proj2 (Z.leb_le 0 (Z.log2 v))) by done.
  destruct (Z.log2_spec v) as [Hlo _]; [lia|].
  rewrite Z.mul_1_l. by rewrite (proj2 (Z.leb_le _ _) Hlo).
Qed.

(** Integers of at most 53 bits are float64 numbers. *)
Lemma round_pos_int (v M u : Z) :
  0 < v ≤ 2 ^ 53 → Float64.round_pos v 1 = (M, u) →
  Float64.ldexp M u = inject_Z v ∧ M * 2 ^ u < 2 ^ 1024.
Proof.
  intros Hv. unfold Float64.round_pos. rewrite (floor_log2_int v) by lia.
  assert (Hl : 0 ≤ Z.log2 v ≤ 53).
  { split; [apply Z.log2_nonneg|]. change 53 with (Z.log2 (2 ^ 53)).
    apply Z.log2_le_mono. lia. }
  rewrite Z.max_l by lia.
  destruct (Z.log2_spec v) as [Hlo Hhi]; [lia|].
  unfold Float64.scale, Float64.ldexp.
  destruct (Z.leb_spec 0 (Z.log2 v - 52)) as [Hu|Hu].
  - assert (Z.log2 v = 52 ∨ Z.log2 v = 53) as [E|E] by lia; rewrite E in *.
    + change (1 * 2 ^ (52 - 52)) with 1. rewrite Z.div_1_r, Z.mod_1_r.
      cbn [Z.mul Z.ltb Z.compare]. intros [= <- <-].
      change (2 ^ 0) with 1. rewrite Z.mul_1_r. split; [done|lia].
    + assert (v = 2 ^ 53) as -> by lia. intros [= <- <-]. by vm_compute.
  - rewrite Z.div_1_r, Z.mod_1_r. cbn [Z.mul Z.ltb Z.compare].
    intros [= <- <-]. rewrite (proj2 (Z.leb_gt 0 (Z.log2 v - 52))) by done.
    assert (HP : 0 < 2 ^ (- (Z.log2 v - 52))) by (apply Z.pow_pos_nonneg; lia).
    split.
    + rewrite <- (Qred_inject_Z v). apply Qred_complete.
      unfold Qeq, inject_Z. cbn [Qnum Qden]. rewrite Z2Pos.id by done. lia.
    + replace (2 ^ (Z.log2 v - 52)) with 0
        by (symmetry; apply Z.pow_neg_r; lia). lia.
Qed.

Lemma round_int (v : Z) :
  Z.abs v ≤ 2 ^ 53 → Float64.round (inject_Z v) = Finite (inject_Z v).
Proof.
  intros Hv. unfold Float64.round. rewrite Qred_inject_Z. cbn [Qnum Qden inject_Z].
  destruct v as [|p|p]; [done| |].
  - destruct (Float64.round_pos (Z.pos p) 1) as [M u] eqn:E.
    destruct (round_pos_int (Z.pos p) M u) as [-> Hlt]; [lia|done|].
    by rewrite (proj2 (Z.leb_gt _ _) Hlt).
  - destruct (Float64.round_pos (Z.pos p) 1) as [M u] eqn:E.
    destruct (round_pos_int (Z.pos p) M u) as [-> Hlt]; [lia|done|].
    by rewrite (proj2 (Z.leb_gt _ _) Hlt).
Qed.

Lemma of_int_exact (v : Z) :
  Z.abs v ≤ 2 ^ 53 → Float64.of_int v = Ok (inject_Z v).
Proof. intros Hv. unfold Float64.of_int. by rewrite round_int. Qed.

Lemma of_int_cases (v : Z) :
  (∃ q, Float64.of_int v = Ok q ∧ Float64.round (inject_Z v) = Finite q) ∨
  Float64.of_int v = Raise OverflowError.
Proof.
  unfold Float64.of_int. destruct (Float64.round (inject_Z v)) as [q| | |];
    [left; by exists q | by right..].
Qed.

(** Rounding a positive number in the normal range: a float64 within
    [2^-53] of it, relatively. *)
Lemma round_error (q : Q) :
  (1 # 2 ^ 1022 <= q)%Q → (q < inject_Z (2 ^ 1023))%Q →
  ∃ y, Float64.round q = Finite y ∧ (0 <= y)%Q ∧
       (Qabs (y - q) <= q * (1 # 2 ^ 53))%Q.
Proof.
  intros Hlo Hhi. pose proof (Qred_correct q) as Hq.
  enough (∃ y, Float64.round q = Finite y ∧ (0 <= y)%Q ∧
               (Qabs (y - Qred q) <= Qred q * (1 # 2 ^ 53))%Q)
    as (y & E & H0 & Herr).
  { exists y. rewrite Hq in Herr. done. }
  unfold Float64.round. cbv zeta.
  rewrite <- Hq in Hlo, Hhi.
  destruct (Qred q) as [n dp]. clear Hq q.
  unfold Qle, Qlt in Hlo, Hhi. cbn [Qnum Qden inject_Z] in Hlo, Hhi |- *.
  rewrite Pos2Z.inj_pow in Hlo.
  destruct n as [|n|n]; [lia| |lia].
  destruct (Float64.round_pos (Z.pos n) (Z.pos dp)) as [M u] eqn:E.
  destruct (round_pos_error (Z.pos n) dp M u) as (H0 & Herr & Hfin);
    [lia| |done|].
  { unfold Float64.pow2_le, Float64.scale.
    cbn [Z.leb Z.compare fst snd Z.opp]. lia. }
  rewrite (proj2 (Z.leb_gt _ _)) by (apply Hfin; lia).
  by exists (Float64.ldexp M u).
Qed.

(** The same as two bounds, zero included. *)
Lemma round_bounds (q : Q) :
  (q == 0 ∨ 1 # 2 ^ 1022 <= q)%Q → (q < inject_Z (2 ^ 1023))%Q →
  ∃ y, Float64.round q = Finite y ∧ (0 <= y)%Q ∧
       (q * (1 - (1 # 2 ^ 53)) <= y)%Q ∧ (y <= q * (1 + (1 # 2 ^ 53)))%Q.
Proof.
  intros [Hz|Hlo] Hhi.
  - exists 0%Q. rewrite (round_Qeq q 0 Hz), Hz. split; [done|].
    split; [done|]. split; rewrite Qmult_0_l; done.
  - destruct (round_error q Hlo Hhi) as (y & E & H0 & Herr).
    exists y. split; [done|]. split; [done|].
    apply Qabs_diff_Qle_condition in Herr as [H1 H2].
    set (e := (1 # 2 ^ 53)%Q) in *. clearbody e. split; lra.
Qed.

(** Some float64 numbers: 0.1; a tie, which goes to the even mantissa,
    at 54 bits and below the least positive float64; and the largest
    float64 with the bound of the overflow past it. *)
Example round_examples :
  Float64.round (1 # 10) = Finite (3602879701896397 # 2 ^ 55) ∧
  Float64.round (inject_Z (2 ^ 53 + 1)) = Finite (inject_Z (2 ^ 53)) ∧
  Float64.round (inject_Z (2 ^ 53 + 3)) = Finite (inject_Z (2 ^ 53 + 4)) ∧
  Float64.round (- (1 # 3)) = Finite (- (6004799503160661 # 2 ^ 54)) ∧
  Float64.round (1 # 2 ^ 1075) = Finite 0 ∧
  Float64.round (3 # 2 ^ 1075) = Finite (1 # 2 ^ 1073) ∧
  Float64.round (inject_Z (2 ^ 1024 - 2 ^ 970 - 1))
    = Finite (inject_Z (2 ^ 1024 - 2 ^ 971)) ∧
  Float64.round (inject_Z (2 ^ 1024 - 2 ^ 970)) = PosInf.
Proof. by vm_compute. Qed.

(** ** The table in float64 *)

Lemma float64_setitem_ok ret ri ci v x :
  Float64.of_int v = Ok x → Float64.setitem ret ri ci v = setitem ret ri ci x.
Proof. unfold Float64.setitem. by intros ->. Qed.

Lemma float64_setitem_raise ret ri ci v :
  Float64.of_int v = Raise OverflowError →
  Float64.setitem ret ri ci v = Raise OverflowError.
Proof. unfold Float64.setitem. by intros ->. Qed.

Section float64_fill.
Variables (rowNames colNames : list atom).
Hypothesis rowNames_NoDup : NoDup rowNames.
Hypothesis colNames_NoDup : NoDup colNames.

#[local] Abbreviation rows := (length rowNames).
#[local] Abbreviation cols := (length colNames).

Lemma float64_fill_row ri its ret :
  (ri < rows)%nat → NoDup its.*1 → (∀ cn, cn ∈ its.*1 → cn ∈ colNames) →
  shape rows cols ret →
  match Float64.fill_row colNames ri its ret with
  | Ok ret' =>
      shape rows cols ret' ∧
      ∀ r c cn, colNames !! c = Some cn →
        Finite <$> cell ret' r c =
          if decide (r = ri) then
            match (list_to_map its : gmap atom Z) !! cn with
            | Some v => Some (Float64.round (inject_Z v))
            | None => Finite <$> cell ret r c
            end
          else Finite <$> cell ret r c
  | Raise e =>
      e = OverflowError ∧
      ∃ cn v, (cn, v) ∈ its ∧ Float64.of_int v = Raise OverflowError
  end.
Proof.
  intros Hri. revert ret.
  induction its as [|[cn0 v0] its IH]; intros ret Hnd Hin Hshape.
  - unfold Float64.fill_row. cbn [for_each]. split; [done|]. intros r c cn _.
    rewrite list_to_map_nil, lookup_empty. by case_decide.
  - rewrite fmap_cons in Hnd. cbn [fst] in Hnd.
    apply NoDup_cons in Hnd as [Hcn0 Hnd].
    destruct (list_index_elem cn0 colNames) as (ci & Eci & Hci);
      [apply Hin; left|].
    unfold Float64.fill_row in *. cbn [for_each]. rewrite Eci. cbn [mbind res_bind].
    destruct (of_int_cases v0) as [(x & Ex & Er)|Eraise].
    2: { rewrite (float64_setitem_raise _ _ _ _ Eraise). cbn.
         split; [done|]. exists cn0, v0. split; [left | done]. }
    rewrite (float64_setitem_ok _ _ _ _ _ Ex).
    destruct (setitem_ok rows cols ret ri ci x Hshape Hri)
      as (ret1 & Eset & Hshape1 & Hcell1);
      [by eapply lookup_lt_Some|].
    rewrite Eset. cbn [mbind res_bind].
    specialize (IH ret1 Hnd (λ cn Hcn, Hin cn (list_elem_of_further _ _ _ Hcn))
                  Hshape1).
    destruct (for_each its _ ret1) as [ret'|e].
    + destruct IH as [Hshape' Hcell']. split; [done|].
      intros r c cn Hc. rewrite (Hcell' r c cn Hc).
      rewrite Hcell1, list_to_map_cons.
      destruct (decide (r = ri)) as [->|Hr];
        [|by rewrite decide_False by (intros [? _]; done)].
      destruct (decide (cn = cn0)) as [->|Hne].
      * rewrite lookup_insert_eq.
        assert (c = ci) as ->
          by exact (NoDup_lookup colNames c ci cn0 colNames_NoDup Hc Hci).
        rewrite (proj1 (not_elem_of_list_to_map its cn0)) by done.
        rewrite decide_True by done. cbn. by rewrite Er.
      * rewrite lookup_insert_ne by done.
        destruct (list_to_map its !! cn); [done|].
        rewrite decide_False; [done|]. intros [_ ->]. congruence.
    + destruct IH as (-> & cn & v & Hv & Ev). split; [done|].
      exists cn, v. split; [by right | done].
Qed.

Lemma float64_fill its ret :
  NoDup its.*1 → (∀ rn, rn ∈ its.*1 → rn ∈ rowNames) →
  (∀ rn row cn, (rn, row) ∈ its → is_Some (row !! cn) → cn ∈ colNames) →
  shape rows cols ret →
  match Float64.fill rowNames colNames its ret with
  | Ok ret' =>
      shape rows cols ret' ∧
      ∀ r c rn cn, rowNames !! r = Some rn → colNames !! c = Some cn →
        Finite <$> cell ret' r c =
          match (list_to_map its : accum) !! rn ≫= (λ row, row !! cn) with
          | Some v => Some (Float64.round (inject_Z v))
          | None => Finite <$> cell ret r c
          end
  | Raise e =>
      e = OverflowError ∧
      ∃ rn row cn v, (rn, row) ∈ its ∧ row !! cn = Some v ∧
                     Float64.of_int v = Raise OverflowError
  end.
Proof.
  revert ret.
  induction its as [|[rn0 row0] its IH]; intros ret Hnd Hin Hcols Hshape.
  - unfold Float64.fill. cbn [for_each]. split; [done|]. intros r c rn cn _ _.
    by rewrite list_to_map_nil, lookup_empty.
  - rewrite fmap_cons in Hnd. cbn [fst] in Hnd.
    apply NoDup_cons in Hnd as [Hrn0 Hnd].
    destruct (list_index_elem rn0 rowNames) as (ri & Eri & Hri);
      [apply Hin; left|].
    pose proof (float64_fill_row ri (items row0) ret) as Hrow.
    unfold Float64.fill, Float64.fill_row in *. cbn [for_each].
    rewrite Eri. cbn [mbind res_bind].
    destruct (for_each (items row0) _ ret) as [ret1|e].
    2: { destruct Hrow as (-> & cn & v & Hv & Ev);
           [by eapply lookup_lt_Some | apply NoDup_fst_map_to_list | | done |].
         { intros cn Hcn. apply (Hcols rn0 row0); [left|].
           apply list_elem_of_fmap in Hcn as ([cn' v] & -> & Hv).
           apply elem_of_map_to_list in Hv. by exists v. }
         cbn [mbind res_bind]. split; [done|]. exists rn0, row0, cn, v.
         split; [left|]. split; [by apply elem_of_map_to_list | done]. }
    destruct Hrow as [Hshape1 Hcell1];
      [by eapply lookup_lt_Some | apply NoDup_fst_map_to_list | | done |].
    { intros cn Hcn. apply (Hcols rn0 row0); [left|].
      apply list_elem_of_fmap in Hcn as ([cn' v] & -> & Hv).
      apply elem_of_map_to_list in Hv. by exists v. }
    cbn [mbind res_bind].
    specialize (IH ret1 Hnd (λ rn Hrn, Hin rn (list_elem_of_further _ _ _ Hrn))
                  (λ rn row cn Hrow, Hcols rn row cn (list_elem_of_further _ _ _ Hrow))
                  Hshape1).
    destruct (for_each its _ ret1) as [ret'|e].
    + destruct IH as [Hshape' Hcell']. split; [done|].
      intros r c rn cn Hr Hc.
      rewrite (Hcell' r c rn cn Hr Hc), (Hcell1 r c cn Hc).
      unfold items. rewrite list_to_map_to_list, list_to_map_cons.
      destruct (decide (rn = rn0)) as [->|Hne].
      * rewrite lookup_insert_eq.
        assert (r = ri) as ->
          by exact (NoDup_lookup rowNames r ri rn0 rowNames_NoDup Hr Hri).
        rewrite (proj1 (not_elem_of_list_to_map its rn0)) by done.
        cbn. by rewrite decide_True.
      * rewrite lookup_insert_ne by done.
        destruct (list_to_map its !! rn ≫= _); [done|].
        rewrite decide_False; [done|]. intros ->. congruence.
    + destruct IH as (-> & rn & row & cn & v & Hrow' & Hv & Ev). split; [done|].
      exists rn, row, cn, v. split; [by right | done].
Qed.
End float64_fill.

Lemma float64_dictsToTbl_unfold dd :
  Float64.dictsToTbl dd =
    (rowNames ← sorted (keys dd);
     colNames ← sorted (elements (column_set dd));
     ret ← Float64.fill rowNames colNames (items dd)
              (np_zeros (length rowNames) (length colNames));
     Ok (ret, rowNames, colNames)).
Proof. reflexivity. Qed.

(** What the float64 [dictsToTbl] does when the labels can be ordered:
    it returns the correctly rounded counts, or a count is beyond the
    float64 range and it raises [OverflowError]. *)
Lemma float64_dictsToTbl_cases dd :
  comparable (keys dd) = true →
  comparable (elements (column_set dd)) = true →
  ∃ rowNames colNames,
    rowNames ≡ₚ keys dd ∧ NoDup rowNames ∧ StronglySorted atom_lt rowNames ∧
    colNames ≡ₚ elements (column_set dd) ∧ NoDup colNames ∧
    StronglySorted atom_lt colNames ∧
    match Float64.dictsToTbl dd with
    | Ok (ret, rs, cs) =>
        rs = rowNames ∧ cs = colNames ∧
        shape (length rowNames) (length colNames) ret ∧
        ∀ r c rn cn, rowNames !! r = Some rn → colNames !! c = Some cn →
          Finite <$> cell ret r c
            = Some (Float64.round (inject_Z (cell_count dd rn cn)))
    | Raise e =>
        e = OverflowError ∧
        ∃ rn row cn v, dd !! rn = Some row ∧ row !! cn = Some v ∧
                       Float64.of_int v = Raise OverflowError
    end.
Proof.
  intros Hrows Hcols.
  destruct (sorted_ok (keys dd) Hrows) as (rowNames & Er & Hpr & Hndr & Hsr);
    [apply NoDup_fst_map_to_list|].
  destruct (sorted_ok (elements (column_set dd)) Hcols)
    as (colNames & Ec & Hpc & Hndc & Hsc); [apply NoDup_elements|].
  exists rowNames, colNames. do 6 (split; [done|]).
  pose proof (float64_fill rowNames colNames Hndr Hndc (items dd)
              (np_zeros (length rowNames) (length colNames))) as Hfill.
  rewrite float64_dictsToTbl_unfold, Er. cbn. rewrite Ec. cbn.
  destruct (Float64.fill rowNames colNames (items dd) _) as [ret|e]; cbn.
  - destruct Hfill as [Hshape Hcell].
    + apply NoDup_fst_map_to_list.
    + intros rn Hrn. by rewrite Hpr.
    + intros rn row cn Hrow Hcn. rewrite Hpc. apply elem_of_elements.
      apply elem_of_column_set. exists rn, row.
      split; [by apply elem_of_map_to_list | done].
    + apply shape_zeros.
    + do 3 (split; [done|]). intros r c rn cn Hrn Hcn.
      rewrite (Hcell r c rn cn Hrn Hcn).
      unfold items. rewrite list_to_map_to_list, cell_zeros
        by (by eapply lookup_lt_Some).
      unfold cell_count. by destruct (dd !! rn ≫= _).
  - destruct Hfill as (-> & rn & row & cn & v & Hrow & Hv & Ev).
    + apply NoDup_fst_map_to_list.
    + intros rn Hrn. by rewrite Hpr.
    + intros rn row cn Hrow Hcn. rewrite Hpc. apply elem_of_elements.
      apply elem_of_column_set. exists rn, row.
      split; [by apply elem_of_map_to_list | done].
    + apply shape_zeros.
    + split; [done|]. exists rn, row, cn, v.
      split; [by apply elem_of_map_to_list | done].
Qed.

Lemma float64_dictsToTbl_raises dd :
  comparable (keys dd) = false ∨ comparable (elements (column_set dd)) = false →
  Float64.dictsToTbl dd = Raise TypeError.
Proof.
  rewrite float64_dictsToTbl_unfold. unfold sorted.
  destruct (comparable (keys dd)); [|done].
  by destruct (comparable (elements (column_set dd))); intros [?|?].
Qed.

Lemma for_each_ext {A B} (l : list A) (f g : A → B → res B) (acc : B) :
  (∀ x b, x ∈ l → f x b = g x b) → for_each l f acc = for_each l g acc.
Proof.
  revert acc. induction l as [|x l IH]; intros acc Hfg; [done|].
  cbn [for_each]. rewrite (Hfg x acc) by left.
  destruct (g x acc) as [b|e]; cbn [mbind res_bind]; [|done].
  apply IH. intros y b' Hy. apply Hfg. by right.
Qed.

(** On counts of at most 53 bits the float64 table is the exact one. *)
Lemma float64_dictsToTbl_exact dd :
  counts_fit dd → Float64.dictsToTbl dd = dictsToTbl dd.
Proof.
  intros Hfit. rewrite float64_dictsToTbl_unfold, dictsToTbl_unfold.
  destruct (sorted (keys dd)) as [rowNames|e]; [|done]. cbn [mbind res_bind].
  destruct (sorted (elements (column_set dd))) as [colNames|e]; [|done].
  cbn [mbind res_bind].
  enough (E : ∀ ret, Float64.fill rowNames colNames (items dd) ret
                     = fill rowNames colNames (items dd) ret) by by rewrite E.
  intros ret. unfold Float64.fill, fill. apply for_each_ext.
  intros [rn row] ret1 Hrow. apply elem_of_map_to_list in Hrow.
  destruct (list_index rn rowNames) as [ri|e]; [|done]. cbn [mbind res_bind].
  apply for_each_ext. intros [cn v] ret2 Hv. apply elem_of_map_to_list in Hv.
  destruct (list_index cn colNames) as [ci|e]; [|done]. cbn [mbind res_bind].
  apply float64_setitem_ok, of_int_exact. by eapply Hfit.
Qed.

(** A count below [2^1023] in magnitude converts to a float64. *)
Lemma of_int_finite (v : Z) :
  Z.abs v < 2 ^ 1023 → ∃ q, Float64.of_int v = Ok q.
Proof.
  intros Hv. unfold Float64.of_int, Float64.round. rewrite Qred_inject_Z.
  cbn [Qnum Qden inject_Z].
  assert (Hpos : ∀ p, Z.pos p < 2 ^ 1023 →
            ∀ M u, Float64.round_pos (Z.pos p) 1 = (M, u) → M * 2 ^ u < 2 ^ 1024).
  { intros p Hp M u E.
    destruct (round_pos_error (Z.pos p) 1 M u) as (_ & _ & Hfin); [lia| |done|].
    - unfold Float64.pow2_le, Float64.scale.
      cbn [Z.leb Z.compare fst snd Z.opp]. lia.
    - apply Hfin. lia. }
  destruct v as [|p|p]; [by eexists| |].
  - destruct (Float64.round_pos (Z.pos p) 1) as [M u] eqn:E.
    rewrite (proj2 (Z.leb_gt _ _)) by (apply (Hpos p); [lia|done]). by eexists.
  - destruct (Float64.round_pos (Z.pos p) 1) as [M u] eqn:E.
    rewrite (proj2 (Z.leb_gt _ _)) by (apply (Hpos p); [lia|done]). by eexists.
Qed.

(** C2 as stated fails on a count of 54 bits: the cell holds the nearest
    float64, not the count. *)
Lemma dictsToTbl_table_counterexample :
  comparable (keys dd_wide) = true ∧
  comparable (elements (column_set dd_wide)) = true ∧
  cell_count dd_wide (AInt 1) (AInt 1) = 2 ^ 53 + 1 ∧
  ∃ ret, Float64.dictsToTbl dd_wide = Ok (ret, [AInt 1], [AInt 1]) ∧
         cell ret 0 0 = Some (inject_Z (2 ^ 53)) ∧
         ¬ (inject_Z (2 ^ 53) == inject_Z (2 ^ 53 + 1))%Q.
Proof.
  split; [by vm_compute|]. split; [by vm_compute|]. split; [by vm_compute|].
  exists [[inject_Z (2 ^ 53)]]. split; [by vm_compute|]. split; [done|].
  by vm_compute.
Qed.

Example dictsToTbl_overflow : Float64.dictsToTbl dd_huge = Raise OverflowError.
Proof. by vm_compute. Qed.

(** C2, amended: for a nested mapping whose outcomes are of one kind and
    whose source names are of one kind, so that each can be sorted, and
    whose counts are of magnitude at most [2^53], so that a float64 cell
    holds them, [dictsToTbl] returns (b) the outcomes in strictly
    ascending order, (c) the names that occur in some row in strictly
    ascending order, and (a) a matrix with one row per outcome and one
    column per name whose cell at a row and a column is the count stored
    for that outcome and name, and zero when none is stored. *)
Theorem dictsToTbl_table (dd : accum) :
  comparable (keys dd) = true →
  comparable (elements (column_set dd)) = true →
  counts_fit dd →
  ∃ ret rowNames colNames,
    Float64.dictsToTbl dd = Ok (ret, rowNames, colNames) ∧
    (* (b) *)
    StronglySorted atom_lt rowNames ∧
    (∀ rn, rn ∈ rowNames ↔ is_Some (dd !! rn)) ∧
    (* (c) *)
    StronglySorted atom_lt colNames ∧
    (∀ cn, cn ∈ colNames ↔ ∃ rn row, dd !! rn = Some row ∧ is_Some (row !! cn)) ∧
    (* (a) *)
    shape (length rowNames) (length colNames) ret ∧
    (∀ r c rn cn, rowNames !! r = Some rn → colNames !! c = Some cn →
       (∀ row v, dd !! rn = Some row → row !! cn = Some v →
                 cell ret r c = Some (inject_Z v)) ∧
       ((∀ row, dd !! rn = Some row → row !! cn = None) →
        cell ret r c = Some 0%Q)).
Proof.
  intros Hrows Hcols Hfit. rewrite (float64_dictsToTbl_exact dd Hfit).
  destruct (dictsToTbl_ok dd Hrows Hcols)
    as (rowNames & colNames & E & Hpr & _ & Hsr & Hpc & _ & Hsc).
  exists (dense dd rowNames colNames), rowNames, colNames.
  split; [done|]. split; [done|].
  split; [intros rn; by rewrite Hpr, elem_of_keys|]. split; [done|].
  split; [intros cn; by rewrite Hpc, elem_of_elements, elem_of_column_set|].
  split; [apply shape_dense|].
  intros r c rn cn Hr Hc. rewrite (cell_dense dd _ _ r c rn cn Hr Hc).
  unfold cell_count. split.
  - intros row v -> Hv. cbn. by rewrite Hv.
  - intros Hnone. destruct (dd !! rn) as [row|]; cbn; [|done].
    by rewrite (Hnone row).
Qed.

Lemma counts_fit_example : counts_fit dd_example.
Proof.
  intros rn row cn v Hrow Hv.
  assert (Hc : cell_count dd_example rn cn = v)
    by (unfold cell_count; rewrite Hrow; cbn; by rewrite Hv).
  rewrite <- Hc. clear. unfold cell_count, dd_example.
  destruct (decide (rn = AInt 6)) as [->|H6].
  - rewrite lookup_insert_eq. cbn.
    destruct (decide (cn = AInt 6)) as [->|H6'];
      [rewrite lookup_insert_eq; cbn; lia|].
    rewrite lookup_insert_ne by done.
    destruct (decide (cn = AInt 8)) as [->|H8];
      [rewrite lookup_singleton_eq; cbn; lia|].
    rewrite lookup_singleton_ne by done. cbn. lia.
  - rewrite lookup_insert_ne by done.
    destruct (decide (rn = AInt 3)) as [->|H3].
    + rewrite lookup_singleton_eq. cbn.
      destruct (decide (cn = AInt 4)) as [->|H4];
        [rewrite lookup_singleton_eq; cbn; lia|].
      rewrite lookup_singleton_ne by done. cbn. lia.
    + rewrite lookup_singleton_ne by done. cbn. lia.
Defined.

Lemma dictsToTbl_table_witness :
  ∃ ret rowNames colNames,
    Float64.dictsToTbl dd_example = Ok (ret, rowNames, colNames) ∧
    StronglySorted atom_lt rowNames ∧
    (∀ rn, rn ∈ rowNames ↔ is_Some (dd_example !! rn)) ∧
    StronglySorted atom_lt colNames ∧
    (∀ cn, cn ∈ colNames ↔
           ∃ rn row, dd_example !! rn = Some row ∧ is_Some (row !! cn)) ∧
    shape (length rowNames) (length colNames) ret ∧
    (∀ r c rn cn, rowNames !! r = Some rn → colNames !! c = Some cn →
       (∀ row v, dd_example !! rn = Some row → row !! cn = Some v →
                 cell ret r c = Some (inject_Z v)) ∧
       ((∀ row, dd_example !! rn = Some row → row !! cn = None) →
        cell ret r c = Some 0%Q)).
Proof.
  apply (dictsToTbl_table dd_example);
    [reflexivity | reflexivity | exact counts_fit_example].
Defined.

Example float64_dictsToTbl_example :
  Float64.dictsToTbl dd_example =
    Ok ([[5; 0; 0]; [0; 2; 1]]%Q, [AInt 3; AInt 6], [AInt 4; AInt 6; AInt 8]).
Proof. by vm_compute. Qed.

Lemma of_int_raise_not_finite v q :
  Float64.of_int v = Raise OverflowError → Float64.round (inject_Z v) ≠ Finite q.
Proof. unfold Float64.of_int. by destruct (Float64.round (inject_Z v)). Qed.

(** X16: [dictsToTbl] raises [TypeError] exactly when the outcomes, or
    the source names, are not all of one kind, and otherwise
    [OverflowError] exactly when some count converts to no float64, which
    takes a count of magnitude [2^1023] or more; it raises nothing else:
    looking up a label with [index] and addressing a cell never fail. The
    empty mapping gives the empty table. *)
Theorem dictsToTbl_exceptions (dd : accum) :
  (∀ e, Float64.dictsToTbl dd = Raise e → e = TypeError ∨ e = OverflowError) ∧
  (Float64.dictsToTbl dd = Raise TypeError ↔
   comparable (keys dd) = false ∨
   comparable (elements (column_set dd)) = false) ∧
  (Float64.dictsToTbl dd = Raise OverflowError ↔
   comparable (keys dd) = true ∧
   comparable (elements (column_set dd)) = true ∧
   ∃ rn row cn v, dd !! rn = Some row ∧ row !! cn = Some v ∧
                  Float64.of_int v = Raise OverflowError) ∧
  (∀ v, Float64.of_int v = Raise OverflowError → 2 ^ 1023 ≤ Z.abs v) ∧
  Float64.dictsToTbl ∅ = Ok ([], [], []).
Proof.
  assert (Hbig : ∀ v, Float64.of_int v = Raise OverflowError → 2 ^ 1023 ≤ Z.abs v).
  { intros v Ev. destruct (Z.le_gt_cases (2 ^ 1023) (Z.abs v)) as [?|Hlt]; [done|].
    destruct (of_int_finite v Hlt) as [q Eq]. congruence. }
  destruct (comparable (keys dd)) eqn:Hr,
           (comparable (elements (column_set dd))) eqn:Hc.
  2-4: rewrite float64_dictsToTbl_raises by (rewrite ?Hr, ?Hc; auto).
  2-4: split; [intros e [= <-]; by left|]; split; [split; auto|];
       split; [|done]; split; [done | by intros (? & ? & _)].
  destruct (float64_dictsToTbl_cases dd Hr Hc)
    as (rs & cs & Hpr & _ & _ & Hpc & _ & _ & Hcases).
  destruct (Float64.dictsToTbl dd) as [[[ret rs'] cs']|e].
  - destruct Hcases as (-> & -> & _ & Hcell).
    split; [done|]. split; [split; [done | by intros [?|?]]|].
    split; [|done]. split; [done|].
    intros (_ & _ & rn & row & cn & v & Hrow & Hv & Ev). exfalso.
    assert (Hrn : rn ∈ rs) by (rewrite Hpr, elem_of_keys; by eexists).
    assert (Hcn : cn ∈ cs).
    { rewrite Hpc, elem_of_elements, elem_of_column_set.
      exists rn, row. by split; [|eexists]. }
    apply list_elem_of_lookup in Hrn as [r Hrn].
    apply list_elem_of_lookup in Hcn as [c Hcn].
    specialize (Hcell r c rn cn Hrn Hcn).
    assert (Hcnt : cell_count dd rn cn = v)
      by (unfold cell_count; rewrite Hrow; cbn; by rewrite Hv).
    rewrite Hcnt in Hcell. destruct (cell ret r c) as [q|]; [|done].
    injection Hcell as Hq. by eapply of_int_raise_not_finite.
  - destruct Hcases as (-> & Hex).
    split; [intros e [= <-]; by right|].
    split; [split; [done | by intros [?|?]]|].
    split; [|done]. split; [done | done].
Qed.

Example of_int_largest :
  Float64.of_int (2 ^ 1024 - 2 ^ 970 - 1) = Ok (inject_Z (2 ^ 1024 - 2 ^ 971)) ∧
  Float64.of_int (2 ^ 1024 - 2 ^ 970) = Raise OverflowError ∧
  Float64.of_int (10 ^ 400) = Raise OverflowError.
Proof. by vm_compute. Qed.

(** X19: the table loses no count that a float64 can hold: for any
    outcome and source name, the cell found through [index] on the two
    label lists holds the float64 nearest to the count of the mapping,
    which is the count itself when its magnitude is at most [2^53], and a
    label that [index] does not find has no count in the mapping. *)
Theorem table_round_trip (dd : accum) (ret : matrix) (rowNames colNames : list atom) :
  Float64.dictsToTbl dd = Ok (ret, rowNames, colNames) →
  ∀ rn cn,
    match list_index rn rowNames, list_index cn colNames with
    | Ok r, Ok c =>
        Finite <$> cell ret r c
          = Some (Float64.round (inject_Z (cell_count dd rn cn))) ∧
        (Z.abs (cell_count dd rn cn) ≤ 2 ^ 53 →
         cell ret r c = Some (inject_Z (cell_count dd rn cn)))
    | _, _ => cell_count dd rn cn = 0
    end.
Proof.
  intros E rn cn.
  assert (Hcmp : comparable (keys dd) = true ∧
                 comparable (elements (column_set dd)) = true).
  { destruct (comparable (keys dd)) eqn:Hr,
             (comparable (elements (column_set dd))) eqn:Hc; [done|..].
    all: rewrite float64_dictsToTbl_raises in E by (rewrite ?Hr, ?Hc; auto).
    all: done. }
  destruct Hcmp as [Hrows Hcols].
  destruct (float64_dictsToTbl_cases dd Hrows Hcols)
    as (rs & cs & Hpr & _ & _ & Hpc & _ & _ & Hcases).
  rewrite E in Hcases. destruct Hcases as (<- & <- & _ & Hcell).
  destruct (list_index rn rowNames) as [r|e] eqn:Er.
  - apply list_index_ok in Er.
    destruct (list_index cn colNames) as [c|e] eqn:Ec.
    + apply list_index_ok in Ec. specialize (Hcell r c rn cn Er Ec).
      split; [done|]. intros Hfit. rewrite round_int in Hcell by done.
      destruct (cell ret r c) as [q|]; [|done]. by injection Hcell as ->.
    + apply list_index_raise in Ec. unfold cell_count.
      destruct (dd !! rn) as [row|] eqn:Hrow; cbn; [|done].
      destruct (row !! cn) as [v|] eqn:Hv; cbn; [|done].
      exfalso. apply Ec. rewrite Hpc, elem_of_elements, elem_of_column_set.
      exists rn, row. by split; [|eexists].
  - apply list_index_raise in Er. apply cell_count_absent.
    apply eq_None_not_Some. intros Hs. apply Er.
    by rewrite Hpr, elem_of_keys.
Qed.

Lemma table_round_trip_witness :
  Finite <$> cell [[5; 0; 0]; [0; 2; 1]]%Q 1 2
    = Some (Float64.round (inject_Z (cell_count dd_example (AInt 6) (AInt 8)))) ∧
  (Z.abs (cell_count dd_example (AInt 6) (AInt 8)) ≤ 2 ^ 53 →
   cell [[5; 0; 0]; [0; 2; 1]]%Q 1 2
     = Some (inject_Z (cell_count dd_example (AInt 6) (AInt 8)))).
Proof.
  apply (table_round_trip dd_example [[5; 0; 0]; [0; 2; 1]]%Q
           [AInt 3; AInt 6] [AInt 4; AInt 6; AInt 8]
           ltac:(by vm_compute) (AInt 6) (AInt 8)).
Defined.

Example table_round_trip_wide :
  Float64.dictsToTbl dd_wide = Ok ([[inject_Z (2 ^ 53)]], [AInt 1], [AInt 1]) ∧
  Float64.round (inject_Z (2 ^ 53 + 1)) = Finite (inject_Z (2 ^ 53)).
Proof. by vm_compute. Qed.

(** ** Normalisation in float64 *)

Lemma float64_norm_lookup ar r row :
  ar !! r = Some row →
  Float64.norm ar !! r
    = Some ((λ x, Float64.div (Finite x) (Float64.np_sum row)) <$> row).
Proof.
  intros Hr.
  unfold Float64.norm, Float64.np_divide_broadcast, Float64.np_sum_axis1_keepdims.
  by rewrite lookup_zip_with, list_lookup_fmap, Hr.
Qed.

(** Adding up non-negative integers up to [2^53] does not round. *)
Lemma np_sum_exact (zs : list Z) :
  Forall (λ z, 0 ≤ z) zs → Zsum zs ≤ 2 ^ 53 →
  Float64.np_sum (inject_Z <$> zs) = Finite (inject_Z (Zsum zs)).
Proof.
  unfold Float64.np_sum. change (Finite 0) with (Finite (inject_Z 0)).
  assert (Hacc : ∀ a, 0 ≤ a → Forall (λ z, 0 ≤ z) zs → a + Zsum zs ≤ 2 ^ 53 →
            foldl (λ acc x, Float64.add acc (Finite x)) (Finite (inject_Z a))
                  (inject_Z <$> zs)
            = Finite (inject_Z (a + Zsum zs))).
  { induction zs as [|z zs IH]; intros a Ha Hall Hsum.
    - cbn. by rewrite Z.add_0_r.
    - apply Forall_cons in Hall as [Hz Hall].
      change (Zsum (z :: zs)) with (z + Zsum zs) in *.
      pose proof (Zsum_nonneg zs Hall).
      rewrite fmap_cons. cbn [foldl Float64.add].
      rewrite (round_Qeq _ (inject_Z (a + z))) by (by rewrite inject_Z_plus).
      rewrite round_int by lia. rewrite IH by (done || lia).
      by rewrite Z.add_assoc. }
  intros Hall Hsum. by rewrite Hacc.
Qed.

(** The quotient of a count by the total of its row. *)
Lemma div_count (z T : Z) :
  0 ≤ z ≤ T → 0 < T ≤ 2 ^ 53 →
  ∃ q, Float64.div (Finite (inject_Z z)) (Finite (inject_Z T)) = Finite q ∧
       Float64.round (inject_Z z / inject_Z T) = Finite q ∧
       (0 <= q)%Q ∧
       (Qabs (q - inject_Z z / inject_Z T)
          <= inject_Z z / inject_Z T * (1 # 2 ^ 53))%Q.
Proof.
  intros Hz HT. unfold Float64.div.
  assert (HT0 : Qeq_bool (inject_Z T) 0 = false).
  { destruct (Qeq_bool (inject_Z T) 0) eqn:E; [|done].
    apply Qeq_bool_eq in E. unfold Qeq, inject_Z in E. cbn in E. lia. }
  rewrite HT0.
  assert (Eq : (inject_Z z / inject_Z T == z # Z.to_pos T)%Q).
  { unfold Qeq, Qdiv, Qmult, Qinv, inject_Z. cbn [Qnum Qden].
    destruct T as [|T|T]; [lia| |lia]. cbn. lia. }
  rewrite (round_Qeq _ _ Eq). setoid_rewrite Eq.
  destruct (Z.eq_dec z 0) as [->|Hz0].
  - exists 0%Q. rewrite (round_Qeq (0 # Z.to_pos T) 0) by done.
    split; [done|]. split; [done|]. split; [done|]. by vm_compute.
  - destruct (round_error (z # Z.to_pos T)) as (q & E & H0 & Herr).
    + unfold Qle. cbn [Qnum Qden]. rewrite Z2Pos.id by lia.
      rewrite Pos2Z.inj_pow.
      assert (2 ^ 53 ≤ 2 ^ 1022) by (apply Z.pow_le_mono_r; lia). nia.
    + unfold Qlt, inject_Z. cbn [Qnum Qden]. rewrite Z2Pos.id by lia.
      assert (1 ≤ 2 ^ 1023) by (change 1 with (2 ^ 0); apply Z.pow_le_mono_r; lia).
      nia.
    + by exists q.
Qed.

Lemma Zsum_elem_le (zs : list Z) z :
  Forall (λ z, 0 ≤ z) zs → z ∈ zs → z ≤ Zsum zs.
Proof.
  induction 1 as [|y l Hy Hl IH]; [by intros ?%elem_of_nil|].
  change (Zsum (y :: l)) with (y + Zsum l). pose proof (Zsum_nonneg l Hl).
  intros [->|Hz]%elem_of_cons; [lia|]. specialize (IH Hz). lia.
Qed.

Lemma Qsum_inject_Z_list (zs : list Z) :
  (Qsum (inject_Z <$> zs) == inject_Z (Zsum zs))%Q.
Proof.
  induction zs as [|z zs IH]; [done|].
  rewrite fmap_cons, Qsum_cons, IH.
  change (Zsum (z :: zs)) with (z + Zsum zs). by rewrite inject_Z_plus.
Qed.


(** Adding the cells one after the other is one of the orders. *)
Lemma np_sum_sums_to (row : list Q) : Float64.sums_to row (Float64.np_sum row).
Proof.
  unfold Float64.np_sum. induction row as [|x row IH] using rev_ind.
  - constructor.
  - rewrite foldl_app. cbn [foldl]. apply Float64.sums_app; [done|constructor].
Qed.



(** The float64 quotients of a row of counts by its total. *)
Lemma div_counts (T : Z) (zs : list Z) :
  0 < T ≤ 2 ^ 53 → Forall (λ z, 0 ≤ z ≤ T) zs →
  ∃ qs,
    (λ x, Float64.div (Finite x) (Finite (inject_Z T))) <$> (inject_Z <$> zs)
      = Finite <$> qs ∧
    Forall2 (λ z q,
               Float64.round (inject_Z z / inject_Z T) = Finite q ∧ (0 <= q)%Q ∧
               (Qabs (q - inject_Z z / inject_Z T)
                  <= inject_Z z / inject_Z T * (1 # 2 ^ 53))%Q) zs qs.
Proof.
  intros HT. induction 1 as [|z zs Hz _ (qs & E & Hall)]; [by exists []|].
  destruct (div_count z T Hz HT) as (q & Eq & Hq).
  exists (q :: qs). split; [|by constructor].
  rewrite !fmap_cons. by rewrite Eq, E.
Qed.




Example float64_norm_example :
  Float64.norm [[5; 0; 0]; [0; 2; 1]; [0; 0; 0]]%Q =
    [[Finite 1; Finite 0; Finite 0];
     [Finite 0; Finite (6004799503160661 # 2 ^ 53);
      Finite (6004799503160661 # 2 ^ 54)];
     [NaN; NaN; NaN]]%Q.
Proof. by vm_compute. Qed.

(** ** The table of a trial in float64 *)

Lemma count_le_row_total (row : gmap atom Z) cn v :
  (∀ cn c, row !! cn = Some c → 0 ≤ c) → row !! cn = Some v → v ≤ row_total row.
Proof.
  intros Hrow Hv. unfold row_total. rewrite (map_sum_delete id row cn v Hv).
  assert (0 ≤ row_total (delete cn row)); [|unfold row_total, id in *; lia].
  apply row_total_nonneg. intros cn' c' [_ Hc']%lookup_delete_Some.
  by eapply Hrow.
Qed.

Lemma row_total_le_total (dd : accum) rn row :
  rows_populated dd → dd !! rn = Some row → row_total row ≤ total dd.
Proof.
  intros Hpop Hrow. unfold total.
  rewrite (map_sum_delete row_total dd rn row Hrow).
  assert (0 ≤ map_sum row_total (delete rn dd)); [|lia].
  apply Zsum_nonneg, Forall_fmap, Forall_forall.
  intros row' [rn' [_ Hrow']%lookup_delete_Some]%elem_of_values. cbn.
  destruct (Hpop rn' row' Hrow') as [_ Hpos].
  apply row_total_nonneg. intros cn c Hc. specialize (Hpos cn c Hc). lia.
Qed.

(** The counts of a trial of at most [2^53] draws fit a float64. *)
Lemma reachable_counts_fit dd : reachable dd → total dd ≤ 2 ^ 53 → counts_fit dd.
Proof.
  intros Hreach Htot rn row cn v Hrow Hv.
  pose proof (reachable_populated dd Hreach) as Hpop.
  destruct (Hpop rn row Hrow) as [_ Hpos].
  pose proof (Hpos cn v Hv).
  pose proof (count_le_row_total row cn v) as Hle.
  pose proof (row_total_le_total dd rn row Hpop Hrow).
  assert (v ≤ row_total row); [|lia].
  apply Hle; [|done]. intros cn' c' Hc'. specialize (Hpos cn' c' Hc'). lia.
Qed.

Lemma div_count_le_1 (z T : Z) (q : Q) :
  0 ≤ z ≤ T → 0 < T ≤ 2 ^ 53 →
  (Qabs (q - inject_Z z / inject_Z T)
     <= inject_Z z / inject_Z T * (1 # 2 ^ 53))%Q →
  Float64.round (inject_Z z / inject_Z T) = Finite q →
  (q <= 1)%Q.
Proof.
  intros Hz HT Herr Er.
  destruct (Z.eq_dec z T) as [->|Hne].
  - rewrite (round_Qeq _ (inject_Z 1)) in Er.
    + rewrite round_int in Er by lia. by injection Er as <-.
    + field. unfold Qeq, inject_Z. cbn. lia.
  - apply Qabs_diff_Qle_condition in Herr as [H1 _].
    assert (Hf : (inject_Z z / inject_Z T * (1 + (1 # 2 ^ 53)) <= 1)%Q).
    { assert (Eq : (inject_Z z / inject_Z T == z # Z.to_pos T)%Q).
      { unfold Qeq, Qdiv, Qmult, Qinv, inject_Z. cbn [Qnum Qden].
        destruct T as [|T|T]; [lia| |lia]. cbn. lia. }
      rewrite Eq. unfold Qle, Qmult, Qplus. cbn [Qnum Qden].
      rewrite !Pos2Z.inj_mul, Z2Pos.id by lia.
      change (Z.pos (2 ^ 53)) with (2 ^ 53). nia. }
    set (f := (inject_Z z / inject_Z T)%Q) in *. clearbody f.
    change (2 ^ 53)%positive with 9007199254740992%positive in *. lra.
Qed.

(** The float64 table of a trial of at most [2^53] draws: it is the exact
    table, and each of its rows holds the counts of one outcome, which
    are not negative and add up to at least 1 and at most [2^53]. *)
Lemma float64_trial_table dd ret rowNames colNames :
  reachable dd → total dd ≤ 2 ^ 53 →
  Float64.dictsToTbl dd = Ok (ret, rowNames, colNames) →
  dictsToTbl dd = Ok (ret, rowNames, colNames) ∧
  length ret = length rowNames ∧
  ∀ r rn, rowNames !! r = Some rn →
    ret !! r = Some (inject_Z <$> (cell_count dd rn <$> colNames)) ∧
    Forall (λ z, 0 ≤ z) (cell_count dd rn <$> colNames) ∧
    Zsum (cell_count dd rn <$> colNames) = outcome_total dd rn ∧
    1 ≤ outcome_total dd rn ≤ 2 ^ 53.
Proof.
  intros Hreach Htot E. pose proof (reachable_populated _ Hreach) as Hpop.
  rewrite (float64_dictsToTbl_exact dd (reachable_counts_fit dd Hreach Htot)) in E.
  split; [done|].
  pose proof (dictsToTbl_dense _ _ _ _ E) as Hret.
  destruct (dictsToTbl_ok_inv _ _ _ _ E) as [Hrows Hcols].
  destruct (dictsToTbl_ok dd Hrows Hcols)
    as (rs & cs & E' & Hpr & _ & _ & Hpc & Hndc & _).
  rewrite E in E'. injection E' as _ <- <-.
  split; [rewrite Hret; unfold dense; by rewrite length_fmap|].
  intros r rn Hrn.
  assert (Hin : rn ∈ keys dd)
    by (rewrite <- Hpr; by eapply list_elem_of_lookup_2).
  apply elem_of_keys in Hin as [drow Hdrow].
  destruct (Hpop rn drow Hdrow) as [Hne Hpos].
  pose proof (row_total_pos drow Hne Hpos) as Hrowpos.
  pose proof (row_total_le_total dd rn drow Hpop Hdrow) as Hrowle.
  assert (Hout : outcome_total dd rn = row_total drow)
    by (unfold outcome_total; by rewrite Hdrow).
  split; [|split; [|split]].
  - rewrite Hret, (dense_rows _ _ _ r rn Hrn). by rewrite <- list_fmap_compose.
  - apply Forall_fmap, Forall_forall. intros cn _. by apply cell_count_nonneg.
  - apply Zsum_cells; [done|]. intros cn Hcn.
    by rewrite Hpc, elem_of_elements, elem_of_column_set.
  - lia.
Qed.

(** X21: for the accumulator of a trial of at most [2^53] draws, the
    float64 table of [dictsToTbl] holds every count exactly; each of its
    rows adds up in float64, without rounding, to the number of draws
    with the outcome of the row, which is at least 1; and [norm] turns
    the row into numbers from 0 to 1, none of them [nan] or an
    infinity. *)
Theorem float64_table_of_trial (dd : accum) (ret : matrix)
    (rowNames colNames : list atom) :
  reachable dd → total dd ≤ 2 ^ 53 →
  Float64.dictsToTbl dd = Ok (ret, rowNames, colNames) →
  ∀ r rn, rowNames !! r = Some rn →
    (∀ c cn, colNames !! c = Some cn →
             cell ret r c = Some (inject_Z (cell_count dd rn cn))) ∧
    ∃ row qs,
      ret !! r = Some row ∧
      Float64.np_sum row = Finite (inject_Z (outcome_total dd rn)) ∧
      1 ≤ outcome_total dd rn ∧
      Float64.norm ret !! r = Some (Finite <$> qs) ∧
      length qs = length colNames ∧
      Forall (λ q, 0 <= q ∧ q <= 1)%Q qs.
Proof.
  intros Hreach Htot E r rn Hrn.
  destruct (float64_trial_table dd ret rowNames colNames Hreach Htot E)
    as (_ & _ & Hrows).
  destruct (Hrows r rn Hrn) as (Hrow & Hnn & Hsum & Hlo & Hhi).
  set (zs := cell_count dd rn <$> colNames) in *. split.
  - intros c cn Hc. unfold cell. rewrite Hrow. cbn. unfold zs.
    by rewrite !list_lookup_fmap, Hc.
  - destruct (div_counts (Zsum zs) zs) as (qs & Eqs & Hqs); [lia| |].
    { apply Forall_forall. intros z Hz. split.
      - rewrite Forall_forall in Hnn. by apply Hnn.
      - by apply Zsum_elem_le. }
    exists (inject_Z <$> zs), qs. split; [done|].
    rewrite (np_sum_exact zs Hnn) by lia. rewrite <- Hsum.
    split; [done|]. split; [lia|].
    rewrite (float64_norm_lookup ret r _ Hrow), (np_sum_exact zs Hnn) by lia.
    split; [by rewrite Eqs|].
    split.
    { erewrite <- Forall2_length by exact Hqs. unfold zs. by rewrite length_fmap. }
    apply Forall_forall. intros q Hq.
    apply list_elem_of_lookup in Hq as [c Hq].
    destruct (Forall2_lookup_r _ _ _ _ _ Hqs Hq) as (z & Hz & Er & H0 & Herr).
    split; [done|]. apply (div_count_le_1 z (Zsum zs)); [|lia|done|done].
    apply list_elem_of_lookup_2 in Hz. split.
    + rewrite Forall_forall in Hnn. by apply Hnn.
    + by apply Zsum_elem_le.
Qed.

Lemma float64_table_of_trial_witness :
  (∀ c cn, [AInt 4; AInt 6; AInt 8] !! c = Some cn →
           cell [[5; 0; 0]; [0; 2; 1]]%Q 1 c
             = Some (inject_Z (cell_count dd_example (AInt 6) cn))) ∧
  ∃ row qs,
    [[5; 0; 0]; [0; 2; 1]]%Q !! 1%nat = Some row ∧
    Float64.np_sum row = Finite (inject_Z (outcome_total dd_example (AInt 6))) ∧
    1 ≤ outcome_total dd_example (AInt 6) ∧
    Float64.norm [[5; 0; 0]; [0; 2; 1]]%Q !! 1%nat = Some (Finite <$> qs) ∧
    length qs = 3%nat ∧
    Forall (λ q, 0 <= q ∧ q <= 1)%Q qs.
Proof.
  apply (float64_table_of_trial dd_example [[5; 0; 0]; [0; 2; 1]]%Q
           [AInt 3; AInt 6] [AInt 4; AInt 6; AInt 8]);
    [|by vm_compute|by vm_compute|reflexivity].
  assert (E : dd_example
              = record_all
                  (replicate 5 (AInt 4, AInt 3)
                   ++ [(AInt 6, AInt 6); (AInt 6, AInt 6); (AInt 8, AInt 6)]) ∅)
    by by vm_compute.
  rewrite E. apply reachable_record_all.
Defined.

(** ** The printed summary *)

Lemma percentages_lookup (nar : list (list float64)) r nrow :
  nar !! r = Some nrow →
  Float64.percentages nar !! r =
    Some ((λ y, Float64.div
                  (Float64.round
                     (inject_Z (Float64.astype_int
                                  (Float64.mul y (Finite 10000)))))
                  (Finite 100)) <$> nrow).
Proof. intros Hr. unfold Float64.percentages. by rewrite list_lookup_fmap, Hr. Qed.

(** The percentage printed for a cell [y] that is the rounded frequency
    [f]: an integer number [k] of hundredths. *)
Lemma percent_cell (f y : Q) :
  (f == 0 ∨ 1 # 2 ^ 53 <= f)%Q → (f <= 1)%Q →
  (f * (1 - (1 # 2 ^ 53)) <= y)%Q → (y <= f * (1 + (1 # 2 ^ 53)))%Q →
  ∃ k : Z,
    Float64.div
      (Float64.round
         (inject_Z (Float64.astype_int (Float64.mul (Finite y) (Finite 10000)))))
      (Finite 100)
    = Float64.round (inject_Z k / 100) ∧
    0 ≤ k ≤ 10000 ∧
    (f * (10000 * (1 - (1 # 2 ^ 53)) * (1 - (1 # 2 ^ 53))) - 1 <= inject_Z k)%Q ∧
    (inject_Z k <= f * (10000 * (1 + (1 # 2 ^ 53)) * (1 + (1 # 2 ^ 53))) - 0)%Q.
Proof.
  change (2 ^ 53)%positive with 9007199254740992%positive.
  intros Hf Hf1 Hlo Hhi.
  assert (Hf0 : (0 <= f)%Q) by (destruct Hf; lra).
  cbn [Float64.mul].
  destruct (round_bounds (y * 10000)) as (p & Ep & Hp0 & Hplo & Hphi).
  { destruct Hf as [Hz|Hpos]; [left; lra | right].
    apply Qle_trans with (1 # 2 ^ 54)%Q.
    - unfold Qle. cbn [Qnum Qden]. rewrite !Pos2Z.inj_pow.
      assert (2 ^ 54 ≤ 2 ^ 1022) by (apply Z.pow_le_mono_r; lia). lia.
    - change (2 ^ 54)%positive with 18014398509481984%positive. lra. }
  { apply Qle_lt_trans with (inject_Z (2 ^ 15));
      [change (inject_Z (2 ^ 15)) with 32768%Q; lra|].
    rewrite <- Zlt_Qlt. apply Z.pow_lt_mono_r; lia. }
  change (2 ^ 53)%positive with 9007199254740992%positive in Hplo, Hphi.
  rewrite Ep. set (k := Qfloor p).
  pose proof (Qfloor_le p) as Hkle. pose proof (Qlt_floor p) as Hklt.
  rewrite inject_Z_plus in Hklt. fold k in Hkle, Hklt.
  assert (Hk0 : 0 ≤ k).
  { change 0 with (Qfloor (inject_Z 0)). by apply Qfloor_resp_le. }
  assert (Hk1 : k ≤ 10000).
  { enough (k < 10001) by lia. rewrite Zlt_Qlt.
    change (inject_Z 10001) with 10001%Q. lra. }
  assert (Ek : Float64.astype_int (Finite p) = k).
  { unfold Float64.astype_int.
    assert (Z.quot (Qnum p) (Z.pos (Qden p)) = k) as ->.
    { unfold k. destruct p as [n d]. cbn [Qnum Qden Qfloor].
      apply Z.quot_div_nonneg; [|done]. unfold Qle in Hp0. cbn in Hp0. lia. }
    rewrite (proj2 (Z.leb_le _ _)) by lia.
    by rewrite (proj2 (Z.ltb_lt _ _)) by lia. }
  exists k. rewrite Ek, round_int by lia. split; [done|]. split; [done|].
  change (inject_Z 1) with 1%Q in Hklt. split; lra.
Qed.

Lemma Qsum_Forall2_le {A B} (f : A → Q) (g : B → Q) (l : list A) (k : list B) :
  Forall2 (λ a b, f a <= g b)%Q l k → (Qsum (f <$> l) <= Qsum (g <$> k))%Q.
Proof.
  induction 1 as [|a b l k Hab _ IH]; [apply Qle_refl|].
  rewrite !fmap_cons, !Qsum_cons. by apply Qplus_le_compat.
Qed.

Lemma percent_cells (T : Q) (zs : list Z) (qs : list Q) :
  Forall (λ z, (inject_Z z / T == 0 ∨ 1 # 2 ^ 53 <= inject_Z z / T)
               ∧ inject_Z z / T <= 1)%Q zs →
  Forall2 (λ z q, (Qabs (q - inject_Z z / T)
                     <= inject_Z z / T * (1 # 2 ^ 53))%Q) zs qs →
  ∃ ks : list Z,
    (λ y, Float64.div
            (Float64.round
               (inject_Z (Float64.astype_int (Float64.mul y (Finite 10000)))))
            (Finite 100)) <$> (Finite <$> qs)
    = (λ k, Float64.round (inject_Z k / 100)) <$> ks ∧
    Forall2 (λ z k,
               0 ≤ k ≤ 10000 ∧
               (inject_Z z / T
                  * (10000 * (1 - (1 # 2 ^ 53)) * (1 - (1 # 2 ^ 53))) - 1
                <= inject_Z k)%Q ∧
               (inject_Z k
                <= inject_Z z / T
                     * (10000 * (1 + (1 # 2 ^ 53)) * (1 + (1 # 2 ^ 53))) - 0)%Q)
            zs ks.
Proof.
  intros Hfs Hqs. induction Hqs as [|z q zs qs Herr _ IH]; [by exists []|].
  apply Forall_cons in Hfs as [(Hf & Hf1) Hfs].
  destruct (IH Hfs) as (ks & E & Hall).
  apply Qabs_diff_Qle_condition in Herr as [H1 H2].
  destruct (percent_cell (inject_Z z / T) q) as (k & Ek & Hk & Hklo & Hkhi);
    [done | done | lra | lra |].
  exists (k :: ks). split; [|by constructor].
  rewrite !fmap_cons. by rewrite E, <- Ek.
Qed.

(** The percentages printed for a row of counts: integer numbers of
    hundredths, each within one hundredth of the exact percentage, that
    add up to at most 10000 and fall short of it by at most one per
    column. *)
Lemma percent_row (zs : list Z) :
  Forall (λ z, 0 ≤ z) zs → 0 < Zsum zs ≤ 2 ^ 53 →
  let T := inject_Z (Zsum zs) in
  ∃ ks : list Z,
    (λ y, Float64.div
            (Float64.round
               (inject_Z (Float64.astype_int (Float64.mul y (Finite 10000)))))
            (Finite 100))
      <$> ((λ x, Float64.div (Finite x) (Finite T)) <$> (inject_Z <$> zs))
    = (λ k, Float64.round (inject_Z k / 100)) <$> ks ∧
    Forall2 (λ z k,
               0 ≤ k ≤ 10000 ∧
               (10000 * inject_Z z / T - 1 - (1 # 2 ^ 38) <= inject_Z k)%Q ∧
               (inject_Z k <= 10000 * inject_Z z / T + (1 # 2 ^ 38))%Q) zs ks ∧
    10000 - Z.of_nat (length zs) ≤ Zsum ks ≤ 10000.
Proof.
  intros Hall HT T.
  assert (HTpos : (0 < T)%Q).
  { unfold T. change 0%Q with (inject_Z 0). rewrite <- Zlt_Qlt. lia. }
  assert (Hfs : Forall (λ z, (inject_Z z / T == 0 ∨ 1 # 2 ^ 53 <= inject_Z z / T)
                             ∧ inject_Z z / T <= 1)%Q zs).
  { apply Forall_forall. intros z Hz.
    pose proof (Zsum_elem_le zs z Hall Hz) as Hle.
    rewrite Forall_forall in Hall. specialize (Hall z Hz).
    assert (H1 : (inject_Z z <= T)%Q) by (unfold T; by rewrite <- Zle_Qle).
    split.
    - destruct (Z.eq_dec z 0) as [->|Hne]; [left; by vm_compute | right].
      apply Qle_shift_div_l; [done|].
      apply Qle_trans with 1%Q.
      + unfold T, Qle, Qmult, inject_Z. cbn [Qnum Qden].
        rewrite ?Pos2Z.inj_mul, ?Pos2Z.inj_pow. lia.
      + change 1%Q with (inject_Z 1). rewrite <- Zle_Qle. lia.
    - apply Qle_shift_div_r; [done|]. by rewrite Qmult_1_l. }
  assert (Hf0 : Forall (λ z, 0 <= inject_Z z / T)%Q zs).
  { apply Forall_forall. intros z Hz. rewrite Forall_forall in Hall.
    specialize (Hall z Hz). apply Qle_shift_div_l; [done|].
    rewrite Qmult_0_l. change 0%Q with (inject_Z 0). by rewrite <- Zle_Qle. }
  destruct (div_counts (Zsum zs) zs) as (qs & Eqs & Hqs); [lia| |].
  { apply Forall_forall. intros z Hz. split.
    - rewrite Forall_forall in Hall. by apply Hall.
    - by apply Zsum_elem_le. }
  fold T in Eqs, Hqs. rewrite Eqs. clear Eqs.
  destruct (percent_cells T zs qs Hfs) as (ks & E & Hall2).
  { eapply Forall2_impl; [exact Hqs|]. by intros z q (_ & _ & Herr). }
  exists ks. split; [done|].
  assert (Hlen : length zs = length ks) by by eapply Forall2_length.
  assert (Hone : (Qsum ((λ z, inject_Z z / T)%Q <$> zs) == 1)%Q).
  { rewrite (list_fmap_compose inject_Z (λ x, x / T)%Q).
    rewrite Qsum_scale, Qsum_inject_Z_list. unfold T. field.
    unfold Qeq, inject_Z. cbn. lia. }
  split.
  - clear HTpos Hone. clearbody T. clear -Hall2 Hfs Hf0.
    induction Hall2 as [|z k zs ks (Hk & Hlo & Hhi) _ IH]; [constructor|].
    apply Forall_cons in Hfs as [(_ & Hf1) Hfs].
    apply Forall_cons in Hf0 as [Hf0 Hf0s].
    constructor; [|by apply IH]. split; [done|].
    assert (Ex : (10000 * inject_Z z / T == inject_Z z / T * 10000)%Q).
    { unfold Qdiv. ring. }
    rewrite Ex. clear Ex.
    change (2 ^ 53)%positive with 9007199254740992%positive in Hlo, Hhi.
    change (2 ^ 38)%positive with 274877906944%positive.
    set (f := (inject_Z z / T)%Q) in *. clearbody f. split; lra.
  - assert (Hhi : (Qsum (inject_Z <$> ks)
                   <= Qsum ((λ q, q * (10000 * (1 + (1 # 2 ^ 53))
                                         * (1 + (1 # 2 ^ 53))) - 0)%Q
                              <$> ((λ z, inject_Z z / T)%Q <$> zs)))%Q).
    { rewrite <- list_fmap_compose. apply Qsum_Forall2_le.
      apply Forall2_flip. eapply Forall2_impl; [exact Hall2|].
      by intros z k (_ & _ & Hk). }
    assert (Hlo : (Qsum ((λ q, q * (10000 * (1 - (1 # 2 ^ 53))
                                      * (1 - (1 # 2 ^ 53))) - 1)%Q
                           <$> ((λ z, inject_Z z / T)%Q <$> zs))
                   <= Qsum (inject_Z <$> ks))%Q).
    { rewrite <- list_fmap_compose. apply Qsum_Forall2_le.
      eapply Forall2_impl; [exact Hall2|]. by intros z k (_ & Hk & _). }
    rewrite Qsum_affine, Hone, Qsum_inject_Z_list in Hhi, Hlo.
    rewrite length_fmap in Hlo.
    change (2 ^ 53)%positive with 9007199254740992%positive in Hlo, Hhi.
    split.
    + enough (10000 - Z.of_nat (length zs) - 1 < Zsum ks) by lia.
      rewrite Zlt_Qlt. unfold Z.sub. rewrite !inject_Z_plus, !inject_Z_opp.
      change (inject_Z 10000) with 10000%Q. change (inject_Z 1) with 1%Q.
      set (n := inject_Z (Z.of_nat (length zs))) in *. clearbody n. lra.
    + enough (Zsum ks < 10001) by lia.
      rewrite Zlt_Qlt. change (inject_Z 10001) with 10001%Q. lra.
Qed.

(** X18: for the accumulator of a trial of at most [2^53] draws whose
    labels can be sorted, [printSummary] prints the column labels and the
    row labels of [dictsToTbl] and one row of percentages per outcome.
    Each percentage is the float64 nearest to [k / 100] for an integer [k]
    from 0 to 10000 that is the exact share of the cell in its row, in
    hundredths of a percent, cut down to an integer: it lies between
    the exact share less one and the exact share, up to [2^-38] for the
    rounding of the division and the product. The [k] of a row add up to
    at most 10000 and fall short of it by at most one per column. *)
Theorem printSummary_percentages {X} (self : Trial.t X)
    (ret : matrix) (rows cols : list atom) :
  reachable (Trial.results self) →
  total (Trial.results self) ≤ 2 ^ 53 →
  Float64.dictsToTbl (Trial.results self) = Ok (ret, rows, cols) →
  ∃ pct,
    Float64.printSummary self = Ok (cols, rows, pct) ∧
    length pct = length rows ∧
    ∀ r rn, rows !! r = Some rn →
      ∃ ks : list Z,
        pct !! r = Some ((λ k, Float64.round (inject_Z k / 100)) <$> ks) ∧
        length ks = length cols ∧
        (∀ c cn k, cols !! c = Some cn → ks !! c = Some k →
           0 ≤ k ≤ 10000 ∧
           (10000 * inject_Z (cell_count (Trial.results self) rn cn)
              / inject_Z (outcome_total (Trial.results self) rn)
              - 1 - (1 # 2 ^ 38) <= inject_Z k)%Q ∧
           (inject_Z k
              <= 10000 * inject_Z (cell_count (Trial.results self) rn cn)
                   / inject_Z (outcome_total (Trial.results self) rn)
                 + (1 # 2 ^ 38))%Q) ∧
        10000 - Z.of_nat (length cols) ≤ Zsum ks ≤ 10000.
Proof.
  intros Hreach Htot E.
  destruct (float64_trial_table _ ret rows cols Hreach Htot E)
    as (_ & Hlenret & Hrows).
  exists (Float64.percentages (Float64.norm ret)).
  split; [unfold Float64.printSummary; by rewrite E|].
  assert (Hlen : length (Float64.percentages (Float64.norm ret)) = length ret).
  { unfold Float64.percentages, Float64.norm, Float64.np_divide_broadcast,
      Float64.np_sum_axis1_keepdims.
    rewrite length_fmap, length_zip_with, length_fmap. lia. }
  split; [by rewrite Hlen|].
  intros r rn Hrn. destruct (Hrows r rn Hrn) as (Hrow & Hnn & Hsum & Hlo & Hhi).
  set (zs := cell_count (Trial.results self) rn <$> cols) in *.
  destruct (percent_row zs Hnn) as (ks & Eks & Hall & Hklo & Hkhi); [lia|].
  exists ks.
  rewrite (percentages_lookup _ r _ (float64_norm_lookup ret r _ Hrow)).
  rewrite (np_sum_exact zs Hnn) by lia. rewrite Eks.
  assert (Hl : length zs = length cols) by (unfold zs; by rewrite length_fmap).
  split; [done|]. split; [rewrite <- Hl; symmetry; by eapply Forall2_length|].
  split; [|by rewrite <- Hl].
  intros c cn k Hc Hk.
  assert (Hz : zs !! c = Some (cell_count (Trial.results self) rn cn))
    by (unfold zs; by rewrite list_lookup_fmap, Hc).
  destruct (Forall2_lookup_lr _ _ _ _ _ _ Hall Hz Hk) as (Hk0 & Hkl & Hkh).
  rewrite Hsum in Hkl, Hkh. done.
Qed.

Lemma printSummary_percentages_witness :
  ∃ pct,
    Float64.printSummary (Trial.mk dd_example tt)
      = Ok ([AInt 4; AInt 6; AInt 8], [AInt 3; AInt 6], pct) ∧
    length pct = 2%nat ∧
    ∀ r rn, [AInt 3; AInt 6] !! r = Some rn →
      ∃ ks : list Z,
        pct !! r = Some ((λ k, Float64.round (inject_Z k / 100)) <$> ks) ∧
        length ks = 3%nat ∧
        (∀ c cn k, [AInt 4; AInt 6; AInt 8] !! c = Some cn → ks !! c = Some k →
           0 ≤ k ≤ 10000 ∧
           (10000 * inject_Z (cell_count dd_example rn cn)
              / inject_Z (outcome_total dd_example rn)
              - 1 - (1 # 2 ^ 38) <= inject_Z k)%Q ∧
           (inject_Z k
              <= 10000 * inject_Z (cell_count dd_example rn cn)
                   / inject_Z (outcome_total dd_example rn)
                 + (1 # 2 ^ 38))%Q) ∧
        10000 - Z.of_nat 3 ≤ Zsum ks ≤ 10000.
Proof.
  apply (printSummary_percentages (Trial.mk dd_example tt)
           [[5; 0; 0]; [0; 2; 1]]%Q [AInt 3; AInt 6] [AInt 4; AInt 6; AInt 8]);
    [|by vm_compute|by vm_compute].
  assert (E : Trial.results (Trial.mk dd_example tt)
              = record_all
                  (replicate 5 (AInt 4, AInt 3)
                   ++ [(AInt 6, AInt 6); (AInt 6, AInt 6); (AInt 8, AInt 6)]) ∅)
    by by vm_compute.
  rewrite E. apply reachable_record_all.
Defined.

(** What the notebook prints for the small accumulator, and for rows of
    57 and 43 and of 31 and 69 draws, where the float64 products
    [0.57 * 10000] and [0.69 * 10000] fall just below 5700 and 6900. *)
Example printSummary_example :
  Float64.printSummary (Trial.mk dd_example tt) =
    Ok ([AInt 4; AInt 6; AInt 8], [AInt 3; AInt 6],
        [Float64.round <$> [100; 0; 0];
         Float64.round <$> [0; 6666 / 100; 3333 / 100]]%Q).
Proof. by vm_compute. Qed.

Example printSummary_short :
  Float64.printSummary
    (Trial.mk {[ AStr "Heads" := {[ AStr "a" := 57; AStr "b" := 43 ]} ]} tt) =
    Ok ([AStr "a"; AStr "b"], [AStr "Heads"],
        [Float64.round <$> [5699 / 100; 43]]%Q) ∧
  Float64.printSummary
    (Trial.mk {[ AStr "Heads" := {[ AStr "a" := 31; AStr "b" := 69 ]} ]} tt) =
    Ok ([AStr "a"; AStr "b"], [AStr "Heads"],
        [Float64.round <$> [31; 6899 / 100]]%Q).
Proof. by vm_compute. Qed.
